(** * mirascope.weaviate.vectorstores: the Weaviate vector-store adapter

    A shallow embedding of [WeaviateVectorStore] (add, retrieve,
    close_connection and the two cached properties [_client] and [_index]).
    The Weaviate client library is an interface of operations over an
    abstract world; every call is recorded, with its outcome, in a trace. *)

From Stdlib Require Import List String Bool Arith Lia ZArith.
Import ListNotations.
Local Open Scope string_scope.
Local Open Scope list_scope.

(** ** Python data *)

Inductive pyval : Type :=
| PyNone
| PyBool (b : bool)
| PyInt (n : Z)
| PyStr (s : string).

(** A keyword-argument dictionary, in insertion order. *)
Definition kwargs : Type := list (string * pyval).

Definition has_key (k : string) (kw : kwargs) : bool :=
  existsb (fun p => String.eqb (fst p) k) kw.

Inductive exn : Type :=
| IndexError
| AttributeError
| TypeError
| KeyError (key : string)
| ClientError (msg : string).

Inductive result (A : Type) : Type :=
| Ok (a : A)
| Raise (e : exn).
Arguments Ok {A} a.
Arguments Raise {A} e.

(** Object identity of a client or of a collection. *)
Definition handle : Type := nat.

(** rag.types.Document, the two fields the adapter reads. *)
Record Document : Type := { text : string; id : string }.

(** weaviate.classes.data.DataObject *)
Record DataObject : Type := { properties : kwargs; uuid : string }.

(** One object of a query result, and the query result itself. *)
Record WObject : Type := { obj_uuid : string; obj_properties : kwargs }.
Record QueryReturn : Type := { objects : list WObject }.

(** mirascope.weaviate.types: pass-through configuration objects. *)
Record WeaviateSettings : Type := { mode : string; settings_fields : kwargs }.
Record WeaviateParams : Type := { name : option string; params_fields : kwargs }.

(** [params.model_copy(update={"name": n})] *)
Definition model_copy_name (p : WeaviateParams) (n : option string) : WeaviateParams :=
  {| name := n; params_fields := params_fields p |}.

(** The methods of mirascope.weaviate.types the adapter calls; their bodies
    are not part of this file, so they are parameters. [from_response]
    builds a WeaviateQueryResult from an object, or raises. *)
Record TypesModule : Type := {
  WeaviateQueryResult : Type;
  from_response : WObject -> result WeaviateQueryResult;
  settings_kwargs : WeaviateSettings -> kwargs;
  params_kwargs : WeaviateParams -> kwargs
}.

(** ** The client library *)

Inductive call : Type :=
| ConnectToLocal (kw : kwargs)
| ConnectToEmbedded (kw : kwargs)
| ConnectToWeaviateCloud (kw : kwargs)
| ConnectToCustom (kw : kwargs)
| CollectionsExists (client : handle) (nm : option string)
| CollectionsGet (client : handle) (nm : option string)
| CollectionsCreate (client : handle) (kw : kwargs)
| DataInsert (coll : handle) (props : kwargs) (uid : string) (kw : kwargs)
| DataInsertMany (coll : handle) (objs : list DataObject)
| QueryNearText (coll : handle) (query : string) (kw : kwargs)
| ClientClose (client : handle).

Inductive outcome : Type :=
| Returned
| Raised (e : exn).

Record event : Type := { ev_call : call; ev_outcome : outcome }.

(** Every operation may change the world and may raise. *)
Record WeaviateAPI : Type := {
  World : Type;
  connect_to_local : kwargs -> World -> result handle * World;
  connect_to_embedded : kwargs -> World -> result handle * World;
  connect_to_weaviate_cloud : kwargs -> World -> result handle * World;
  connect_to_custom : kwargs -> World -> result handle * World;
  collections_exists : handle -> option string -> World -> result bool * World;
  collections_get : handle -> option string -> World -> result handle * World;
  collections_create : handle -> kwargs -> World -> result handle * World;
  data_insert : handle -> kwargs -> string -> kwargs -> World -> result pyval * World;
  data_insert_many : handle -> list DataObject -> World -> result pyval * World;
  query_near_text : handle -> string -> kwargs -> World -> result QueryReturn * World;
  client_close : handle -> World -> result unit * World
}.

(** The class attributes of a store, and [self.chunker.chunk]. *)
Record WeaviateVectorStore : Type := {
  chunker_chunk : string -> list Document;
  index_name : option string;
  client_settings : WeaviateSettings;
  vectorstore_params : WeaviateParams
}.

(** The argument of [add]: [Union[str, list[Document]]]. *)
Inductive add_input : Type :=
| TStr (s : string)
| TDocs (l : list Document).

(** Python truthiness of an [Optional[str]]. *)
Definition truthy (o : option string) : bool :=
  match o with
  | None => false
  | Some s => negb (String.eqb s "")
  end.

Definition outcome_of {A : Type} (r : result A) : outcome :=
  match r with
  | Ok _ => Returned
  | Raise e => Raised e
  end.

(** ** State and the adapter's monad *)

Section Adapter.

Variable weaviate : WeaviateAPI.
Variable types : TypesModule.
Variable self : WeaviateVectorStore.

(** The world, the two [cached_property] slots of the instance
    ([None]: nothing cached yet), and the calls made so far. *)
Record State : Type := {
  world : World weaviate;
  client_slot : option (option handle);
  index_slot : option handle;
  trace : list event
}.

Definition M (A : Type) : Type := State -> result A * State.

Definition ret {A : Type} (a : A) : M A := fun st => (Ok a, st).

Definition raise {A : Type} (e : exn) : M A := fun st => (Raise e, st).

Definition bind {A B : Type} (m : M A) (k : A -> M B) : M B :=
  fun st =>
    match m st with
    | (Ok a, st') => k a st'
    | (Raise e, st') => (Raise e, st')
    end.

(** A call into the client library, logged with its outcome. *)
Definition invoke {A : Type} (c : call)
    (op : World weaviate -> result A * World weaviate) : M A :=
  fun st =>
    let '(r, w) := op (world st) in
    (r, {| world := w;
           client_slot := client_slot st;
           index_slot := index_slot st;
           trace := trace st ++ [{| ev_call := c; ev_outcome := outcome_of r |}] |}).

Definition set_client_slot (v : option handle) (st : State) : State :=
  {| world := world st; client_slot := Some v;
     index_slot := index_slot st; trace := trace st |}.

Definition set_index_slot (v : handle) (st : State) : State :=
  {| world := world st; client_slot := client_slot st;
     index_slot := Some v; trace := trace st |}.

(** One evaluation of a functools.cached_property: a cached value is
    returned as it is; otherwise the body runs and its value, when it
    returns one, is stored. What it raises is raised to the attribute lookup
    that evaluated it, which is [instance_attribute] below. *)
Definition cached_property {A : Type} (slot : State -> option A)
    (store : A -> State -> State) (body : M A) : M A :=
  fun st =>
    match slot st with
    | Some v => (Ok v, st)
    | None =>
        match body st with
        | (Ok v, st') => (Ok v, store v st')
        | (Raise e, st') => (Raise e, st')
        end
    end.

(** [l[0]] *)
Definition item0 {A : Type} (l : list A) : M A :=
  match l with
  | [] => raise IndexError
  | x :: _ => ret x
  end.

(** Attribute access on a value that may be [None]. *)
Definition getattr {A : Type} (o : option A) : M A :=
  match o with
  | None => raise AttributeError
  | Some x => ret x
  end.

(** A call that is no call into the client library: its outcome, as it is. *)
Definition returning {A : Type} (r : result A) : M A := fun st => (r, st).

(** Attribute lookup on the instance. The store is a pydantic model, through
    its base class BaseVectorStore (mirascope.rag.vectorstores, not part of
    this file), and a [cached_property] stays a plain attribute of the
    class. When the lookup of a property raises AttributeError, Python falls
    back to [BaseModel.__getattr__], which finds the name on the class and
    evaluates the property once more; what the second evaluation returns or
    raises is the outcome of the lookup. *)
Definition instance_attribute {A : Type} (property : M A) : M A :=
  fun st =>
    match property st with
    | (Raise AttributeError, st') => property st'
    | out => out
    end.

(** [f(k=..., **kw)] raises TypeError when [kw] repeats an explicit keyword. *)
Definition check_keywords (explicit : list string) (kw : kwargs) : M unit :=
  if existsb (fun k => has_key k kw) explicit then raise TypeError else ret tt.


Notation "x <- m ;; k" := (bind m (fun x => k))
  (at level 61, m at next level, right associativity).

(** ** The two cached properties *)

(** [WeaviateVectorStore._client]: the dispatch on [client_settings.mode];
    falling through the last [elif] returns [None]. *)
Definition _client_body : M (option handle) :=
  let kw := settings_kwargs types (client_settings self) in
  if String.eqb (mode (client_settings self)) "local" then
    c <- invoke (ConnectToLocal kw) (connect_to_local weaviate kw) ;;
    ret (Some c)
  else if String.eqb (mode (client_settings self)) "embedded" then
    c <- invoke (ConnectToEmbedded kw) (connect_to_embedded weaviate kw) ;;
    ret (Some c)
  else if String.eqb (mode (client_settings self)) "cloud" then
    c <- invoke (ConnectToWeaviateCloud kw) (connect_to_weaviate_cloud weaviate kw) ;;
    ret (Some c)
  else if String.eqb (mode (client_settings self)) "custom" then
    c <- invoke (ConnectToCustom kw) (connect_to_custom weaviate kw) ;;
    ret (Some c)
  else ret None.

(** One evaluation of the property [_client]. *)
Definition _client_property : M (option handle) :=
  cached_property client_slot set_client_slot _client_body.

(** [self._client]: the attribute lookup, wherever the source writes it. *)
Definition _client : M (option handle) := instance_attribute _client_property.

(** [WeaviateVectorStore._index]. Each [self._client.collections] reads the
    property again and fails with AttributeError on [None]. *)
Definition _index_body : M handle :=
  let vectorstore_params' :=
    if truthy (index_name self)
    then model_copy_name (vectorstore_params self) (index_name self)
    else vectorstore_params self in
  c <- _client ;;
  client <- getattr c ;;
  found <- invoke (CollectionsExists client (index_name self))
             (collections_exists weaviate client (index_name self)) ;;
  if found then
    c <- _client ;;
    client <- getattr c ;;
    invoke (CollectionsGet client (index_name self))
      (collections_get weaviate client (index_name self))
  else
    c <- _client ;;
    client <- getattr c ;;
    let kw := params_kwargs types vectorstore_params' in
    invoke (CollectionsCreate client kw) (collections_create weaviate client kw).

(** One evaluation of the property [_index]. *)
Definition _index_property : M handle :=
  cached_property index_slot set_index_slot _index_body.

(** [self._index]: the attribute lookup, wherever the source writes it. *)
Definition _index : M handle := instance_attribute _index_property.

(** ** The public methods *)

Definition data_object (document : Document) : DataObject :=
  {| properties := [("text", PyStr (text document))]; uuid := id document |}.

(** The [for document in documents] loop appending to [data_objects]. *)
Definition build_data_objects (documents : list Document) : list DataObject :=
  fold_left (fun data_objects document => data_objects ++ [data_object document])
    documents [].

(** The body of [add] once [documents] is bound. The callee
    [self._index.data.insert] is evaluated before its arguments. *)
Definition add_documents (documents : list Document) (kw : kwargs) : M pyval :=
  if Nat.ltb (List.length documents) 2 then
    coll <- _index ;;
    d_text <- item0 documents ;;
    d_id <- item0 documents ;;
    _ <- check_keywords ["properties"; "uuid"] kw ;;
    invoke (DataInsert coll [("text", PyStr (text d_text))] (id d_id) kw)
      (data_insert weaviate coll [("text", PyStr (text d_text))] (id d_id) kw)
  else
    let data_objects := build_data_objects documents in
    coll <- _index ;;
    invoke (DataInsertMany coll data_objects)
      (data_insert_many weaviate coll data_objects).

Definition add (input : add_input) (kw : kwargs) : M pyval :=
  let documents :=
    match input with
    | TStr s => chunker_chunk self s
    | TDocs l => l
    end in
  add_documents documents kw.

Definition retrieve (query : string) (kw : kwargs) : M (WeaviateQueryResult types) :=
  coll <- _index ;;
  _ <- check_keywords ["query"] kw ;;
  query_result <- invoke (QueryNearText coll query kw)
                    (query_near_text weaviate coll query kw) ;;
  result <- item0 (objects query_result) ;;
  returning (from_response types result).

Definition close_connection : M unit :=
  c <- _client ;;
  client <- getattr c ;;
  invoke (ClientClose client) (client_close weaviate client).

End Adapter.

Arguments world {weaviate} s.
Arguments client_slot {weaviate} s.
Arguments index_slot {weaviate} s.
Arguments trace {weaviate} s.
Arguments ret {weaviate A} a _.
Arguments raise {weaviate A} e _.
Arguments bind {weaviate A B} m k _.
Arguments invoke {weaviate A} c op _.
Arguments set_client_slot {weaviate} v st.
Arguments set_index_slot {weaviate} v st.
Arguments cached_property {weaviate A} slot store body _.
Arguments item0 {weaviate A} l _.
Arguments getattr {weaviate A} o _.
Arguments check_keywords {weaviate} explicit kw _.
Arguments returning {weaviate A} r _.
Arguments instance_attribute {weaviate A} property _.

(** A newly constructed instance: nothing cached, nothing called. *)
Definition fresh (weaviate : WeaviateAPI) (w : World weaviate) : State weaviate :=
  {| world := w; client_slot := None; index_slot := None; trace := [] |}.

(** ** Histories of an instance *)

Inductive operation : Type :=
| OpAdd (input : add_input) (kw : kwargs)
| OpRetrieve (query : string) (kw : kwargs)
| OpCloseConnection
| OpClient
| OpIndex.

(** The state an operation leaves, whether it returns or raises. *)
Definition run_op (weaviate : WeaviateAPI) (types : TypesModule)
    (self : WeaviateVectorStore) (st : State weaviate) (o : operation) : State weaviate :=
  match o with
  | OpAdd input kw => snd (add weaviate types self input kw st)
  | OpRetrieve query kw => snd (retrieve weaviate types self query kw st)
  | OpCloseConnection => snd (close_connection weaviate types self st)
  | OpClient => snd (_client weaviate types self st)
  | OpIndex => snd (_index weaviate types self st)
  end.

Definition run_ops (weaviate : WeaviateAPI) (types : TypesModule)
    (self : WeaviateVectorStore) (ops : list operation) (st : State weaviate) : State weaviate :=
  fold_left (run_op weaviate types self) ops st.

(** The list [add] binds to [documents]. *)
Definition documents_of (self : WeaviateVectorStore) (input : add_input) : list Document :=
  match input with
  | TStr s => chunker_chunk self s
  | TDocs l => l
  end.

(** ** Observations on a trace *)

Definition calls (t : list event) : list call := map ev_call t.

Definition is_connect (c : call) : bool :=
  match c with
  | ConnectToLocal _ | ConnectToEmbedded _
  | ConnectToWeaviateCloud _ | ConnectToCustom _ => true
  | _ => false
  end.

(** The calls of the collection create-or-fetch. *)
Definition is_collections (c : call) : bool :=
  match c with
  | CollectionsExists _ _ | CollectionsGet _ _ | CollectionsCreate _ _ => true
  | _ => false
  end.

Definition is_setup (c : call) : bool := is_connect c || is_collections c.

Definition is_insert (c : call) : bool :=
  match c with
  | DataInsert _ _ _ _ | DataInsertMany _ _ => true
  | _ => false
  end.

Definition is_near_text (c : call) : bool :=
  match c with
  | QueryNearText _ _ _ => true
  | _ => false
  end.

Definition connect_calls (t : list event) : list call := filter is_connect (calls t).
Definition collections_calls (t : list event) : list call := filter is_collections (calls t).
Definition insert_calls (t : list event) : list call := filter is_insert (calls t).
Definition near_text_calls (t : list event) : list call := filter is_near_text (calls t).

(** The objects a trace hands to the database, in order. *)
Definition submitted_by (c : call) : list DataObject :=
  match c with
  | DataInsert _ props uid _ => [{| properties := props; uuid := uid |}]
  | DataInsertMany _ objs => objs
  | _ => []
  end.

Definition submitted (t : list event) : list DataObject :=
  flat_map submitted_by (calls t).

(** The events of [st'] that are not yet in [st]. *)
Definition new_events {weaviate : WeaviateAPI} (st st' : State weaviate) : list event :=
  skipn (List.length (trace st)) (trace st').

(** What [_client] makes of the outcome of a connect call. *)
Definition handed_on (r : result handle) : result (option handle) :=
  match r with
  | Ok h => Ok (Some h)
  | Raise e => Raise e
  end.

(** An access to [_client] from [st] calls [connect], logged as [c], and
    nothing else: once, handing on its outcome; or, when that first call
    raises AttributeError, a second time, handing on the outcome of the
    second call. *)
Definition opens_with (weaviate : WeaviateAPI) (types : TypesModule)
    (self : WeaviateVectorStore) (st : State weaviate) (c : call)
    (connect : World weaviate -> result handle * World weaviate) : Prop :=
  match fst (connect (world st)) with
  | Raise AttributeError =>
      let again := connect (snd (connect (world st))) in
      fst (_client weaviate types self st) = handed_on (fst again) /\
      new_events st (snd (_client weaviate types self st)) =
        [{| ev_call := c; ev_outcome := Raised AttributeError |};
         {| ev_call := c; ev_outcome := outcome_of (fst again) |}] /\
      world (snd (_client weaviate types self st)) = snd again
  | r =>
      fst (_client weaviate types self st) = handed_on r /\
      new_events st (snd (_client weaviate types self st)) =
        [{| ev_call := c; ev_outcome := outcome_of r |}] /\
      world (snd (_client weaviate types self st)) = snd (connect (world st))
  end.

(** [index_name] is set: neither None nor the empty string. *)
Definition is_set (o : option string) : Prop :=
  exists n, o = Some n /\ n <> "".

(** The parameters a new collection is created from: [vectorstore_params],
    with the name overridden to [index_name] when that is set. *)
Definition create_params (self : WeaviateVectorStore) : WeaviateParams :=
  match index_name self with
  | Some n => if String.eqb n ""
              then vectorstore_params self
              else {| name := Some n;
                      params_fields := params_fields (vectorstore_params self) |}
  | None => vectorstore_params self
  end.

(** The call that follows the answer of [exists]: [collections.get], or
    [collections.create] with the keyword arguments of the parameters. *)
Definition get_or_create (weaviate : WeaviateAPI) (types : TypesModule)
    (self : WeaviateVectorStore) (client : handle) (found : bool)
    : call * (World weaviate -> result handle * World weaviate) :=
  if found
  then (CollectionsGet client (index_name self),
        collections_get weaviate client (index_name self))
  else (CollectionsCreate client (params_kwargs types (create_params self)),
        collections_create weaviate client (params_kwargs types (create_params self))).

(** The four configured modes. *)
Definition configured_mode (m : string) : bool :=
  String.eqb m "local" || String.eqb m "embedded" ||
  String.eqb m "cloud" || String.eqb m "custom".

(** An exception raised by a client call ends the run and is its result. *)
Fixpoint propagated {A : Type} (t : list event) (r : result A) : Prop :=
  match t with
  | [] => True
  | ev :: t' =>
      match ev_outcome ev with
      | Returned => propagated t' r
      | Raised e => t' = [] /\ r = Raise e
      end
  end.

(** A computation keeps [I] and only adds calls that satisfy [P]. *)
Definition keeps {weaviate : WeaviateAPI} {A : Type}
    (I : State weaviate -> Prop) (P : call -> bool) (m : M weaviate A) : Prop :=
  forall st, I st ->
    I (snd (m st)) /\
    exists t, trace (snd (m st)) = trace st ++ t /\ forallb P (calls t) = true.

(** A client call that raises is the last call and its exception the
    result, unless it is a call of the connection or of the create-or-fetch
    that raised AttributeError: the run may go on after that one. *)
Fixpoint forwarded {A : Type} (t : list event) (r : result A) : Prop :=
  match t with
  | [] => True
  | ev :: t' =>
      match ev_outcome ev with
      | Returned => forwarded t' r
      | Raised e =>
          (t' = [] /\ r = Raise e) \/
          (e = AttributeError /\ is_setup (ev_call ev) = true /\ forwarded t' r)
      end
  end.

(** A computation only appends to the trace, and forwards what is raised. *)
Definition forwards {weaviate : WeaviateAPI} {A : Type} (m : M weaviate A) : Prop :=
  forall st, exists t,
    trace (snd (m st)) = trace st ++ t /\ forwarded t (fst (m st)).

(** ** A small in-memory server, for concrete runs *)

Record Server : Type := {
  reachable : bool;
  names : list string;
  stored : list (handle * DataObject)
}.

Definition lookup (k : string) (kw : kwargs) : option pyval :=
  match find (fun p => String.eqb (fst p) k) kw with
  | Some p => Some (snd p)
  | None => None
  end.

Fixpoint position (n : string) (l : list string) : option nat :=
  match l with
  | [] => None
  | x :: l' => if String.eqb x n then Some 0
               else match position n l' with
                    | Some i => Some (S i)
                    | None => None
                    end
  end.

Definition server_connect (kw : kwargs) (s : Server) : result handle * Server :=
  if reachable s then (Ok 1, s) else (Raise (ClientError "connection refused"), s).

Definition server_exists (c : handle) (nm : option string) (s : Server)
    : result bool * Server :=
  match nm with
  | Some n => (Ok (existsb (String.eqb n) (names s)), s)
  | None => (Ok false, s)
  end.

Definition server_get (c : handle) (nm : option string) (s : Server)
    : result handle * Server :=
  match nm with
  | Some n => match position n (names s) with
              | Some i => (Ok (100 + i), s)
              | None => (Raise (ClientError "no such collection"), s)
              end
  | None => (Raise (ClientError "no such collection"), s)
  end.

Definition server_create (c : handle) (kw : kwargs) (s : Server)
    : result handle * Server :=
  match lookup "name" kw with
  | Some (PyStr n) =>
      if existsb (String.eqb n) (names s)
      then (Raise (ClientError "collection already exists"), s)
      else (Ok (100 + List.length (names s)),
            {| reachable := reachable s; names := names s ++ [n]; stored := stored s |})
  | _ => (Raise (ClientError "missing name"), s)
  end.

Definition server_insert (coll : handle) (props : kwargs) (uid : string) (kw : kwargs)
    (s : Server) : result pyval * Server :=
  (Ok (PyStr uid),
   {| reachable := reachable s; names := names s;
      stored := stored s ++ [(coll, {| properties := props; uuid := uid |})] |}).

Definition server_insert_many (coll : handle) (objs : list DataObject) (s : Server)
    : result pyval * Server :=
  (Ok PyNone,
   {| reachable := reachable s; names := names s;
      stored := stored s ++ map (fun o => (coll, o)) objs |}).

(** Every stored object of the collection counts as near, oldest first. *)
Definition server_near_text (coll : handle) (query : string) (kw : kwargs) (s : Server)
    : result QueryReturn * Server :=
  (Ok {| objects :=
           map (fun p => {| obj_uuid := uuid (snd p); obj_properties := properties (snd p) |})
             (filter (fun p => Nat.eqb (fst p) coll) (stored s)) |}, s).

Definition server_close (c : handle) (s : Server) : result unit * Server := (Ok tt, s).

Definition server_api : WeaviateAPI :=
  {| World := Server;
     connect_to_local := server_connect;
     connect_to_embedded := server_connect;
     connect_to_weaviate_cloud := server_connect;
     connect_to_custom := server_connect;
     collections_exists := server_exists;
     collections_get := server_get;
     collections_create := server_create;
     data_insert := server_insert;
     data_insert_many := server_insert_many;
     query_near_text := server_near_text;
     client_close := server_close |}.

(** A query result is the object itself; like the library's own
    [from_response], it needs the [text] property. *)
Definition plain_types : TypesModule :=
  {| WeaviateQueryResult := WObject;
     from_response := fun o =>
       match lookup "text" (obj_properties o) with
       | Some _ => Ok o
       | None => Raise (KeyError "text")
       end;
     settings_kwargs := settings_fields;
     params_kwargs := fun p =>
       match name p with
       | Some n => ("name", PyStr n) :: params_fields p
       | None => params_fields p
       end |}.

(** The same server behind a library that first fails: a world is the
    server and the number of glitches left, and a flaky call raises
    AttributeError while there is one left. *)
Definition on_server {A : Type} (op : Server -> result A * Server)
    (w : nat * Server) : result A * (nat * Server) :=
  (fst (op (snd w)), (fst w, snd (op (snd w)))).

Definition flaky {A : Type} (op : Server -> result A * Server)
    (w : nat * Server) : result A * (nat * Server) :=
  match fst w with
  | 0 => on_server op w
  | S glitches => (Raise AttributeError, (glitches, snd w))
  end.

Definition flaky_connect (kw : kwargs) : nat * Server -> result handle * (nat * Server) :=
  flaky (server_connect kw).

Definition flaky_api : WeaviateAPI :=
  {| World := nat * Server;
     connect_to_local := flaky_connect;
     connect_to_embedded := flaky_connect;
     connect_to_weaviate_cloud := flaky_connect;
     connect_to_custom := flaky_connect;
     collections_exists := fun c nm => on_server (server_exists c nm);
     collections_get := fun c nm => on_server (server_get c nm);
     collections_create := fun c kw => on_server (server_create c kw);
     data_insert := fun coll props uid kw => on_server (server_insert coll props uid kw);
     data_insert_many := fun coll objs => on_server (server_insert_many coll objs);
     query_near_text := fun coll q kw => on_server (server_near_text coll q kw);
     client_close := fun c => on_server (server_close c) |}.

(** The glitches in [collections.get] instead. *)
Definition flaky_get_api : WeaviateAPI :=
  {| World := nat * Server;
     connect_to_local := fun kw => on_server (server_connect kw);
     connect_to_embedded := fun kw => on_server (server_connect kw);
     connect_to_weaviate_cloud := fun kw => on_server (server_connect kw);
     connect_to_custom := fun kw => on_server (server_connect kw);
     collections_exists := fun c nm => on_server (server_exists c nm);
     collections_get := fun c nm => flaky (server_get c nm);
     collections_create := fun c kw => on_server (server_create c kw);
     data_insert := fun coll props uid kw => on_server (server_insert coll props uid kw);
     data_insert_many := fun coll objs => on_server (server_insert_many coll objs);
     query_near_text := fun coll q kw => on_server (server_near_text coll q kw);
     client_close := fun c => on_server (server_close c) |}.

(** A collection holding one object that has no [text] property. *)
Definition server_with_untexted : Server :=
  {| reachable := true; names := ["my-store-0001"];
     stored := [(100, {| properties := [("title", PyStr "alpha")]; uuid := "id-a" |})] |}.

(** A chunker that keeps a text whole; the empty text gives no chunk. *)
Definition whole_text_chunker (s : string) : list Document :=
  if String.eqb s "" then [] else [{| text := s; id := "chunk-0" |}].

Definition store_with_mode (m : string) : WeaviateVectorStore :=
  {| chunker_chunk := whole_text_chunker;
     index_name := Some "my-store-0001";
     client_settings := {| mode := m; settings_fields := [] |};
     vectorstore_params := {| name := None; params_fields := [] |} |}.

Definition my_store : WeaviateVectorStore := store_with_mode "local".

Definition server_up : Server := {| reachable := true; names := []; stored := [] |}.
Definition server_down : Server := {| reachable := false; names := []; stored := [] |}.
Definition server_with_index : Server :=
  {| reachable := true; names := ["my-store-0001"]; stored := [] |}.

Definition server_with_data : Server :=
  {| reachable := true; names := ["my-store-0001"];
     stored := [(100, {| properties := [("text", PyStr "alpha")]; uuid := "id-a" |});
                (100, {| properties := [("text", PyStr "beta")]; uuid := "id-b" |})] |}.

(** The instance of [my_store] on a server, after its first access to
    [_client] and after its first access to [_index]. *)
Definition connected (s : Server) : State server_api :=
  snd (_client server_api plain_types my_store (fresh server_api s)).

Definition indexed (s : Server) : State server_api :=
  snd (_index server_api plain_types my_store (fresh server_api s)).

(** What an instance may be asked to do after its first access. *)
Definition usual_history : list operation :=
  [OpAdd (TStr "hello") []; OpIndex; OpRetrieve "hello" []; OpClient;
   OpCloseConnection].

Definition doc_a : Document := {| text := "alpha"; id := "id-a" |}.
Definition doc_b : Document := {| text := "beta"; id := "id-b" |}.
Definition doc_c : Document := {| text := "gamma"; id := "id-c" |}.

(** ** Further observations *)

Definition is_close (c : call) : bool :=
  match c with
  | ClientClose _ => true
  | _ => false
  end.

(** The two calls that hand out a collection. *)
Definition is_fetch (c : call) : bool :=
  match c with
  | CollectionsGet _ _ | CollectionsCreate _ _ => true
  | _ => false
  end.

(** The calls each operation can make. *)
Definition allowed (o : operation) (c : call) : bool :=
  match o with
  | OpAdd _ _ => is_setup c || is_insert c
  | OpRetrieve _ _ => is_setup c || is_near_text c
  | OpCloseConnection => is_connect c || is_close c
  | OpClient => is_connect c
  | OpIndex => is_setup c
  end.

Definition returned (ev : event) : bool :=
  match ev_outcome ev with
  | Returned => true
  | Raised _ => false
  end.

(** How many connect calls returned a client, and how many get or create
    calls returned a collection. *)
Definition connections_opened (t : list event) : nat :=
  List.length (filter (fun ev => returned ev && is_connect (ev_call ev)) t).

Definition collections_obtained (t : list event) : nat :=
  List.length (filter (fun ev => returned ev && is_fetch (ev_call ev)) t).

(** The collection a data or query call is addressed to. *)
Definition data_target (c : call) : option handle :=
  match c with
  | DataInsert coll _ _ _ | DataInsertMany coll _ | QueryNearText coll _ _ => Some coll
  | _ => None
  end.

(** The client a collections or close call is addressed to. *)
Definition client_target (c : call) : option handle :=
  match c with
  | CollectionsExists client _ | CollectionsGet client _
  | CollectionsCreate client _ | ClientClose client => Some client
  | _ => None
  end.

(** Every collections or close call made so far went to the cached client. *)
Definition one_client {weaviate : WeaviateAPI} (st : State weaviate) : Prop :=
  forall ev c, In ev (trace st) -> client_target (ev_call ev) = Some c ->
    client_slot st = Some (Some c).

(** A cached collection comes with the cached client it was asked from. *)
Definition coherent {weaviate : WeaviateAPI} (st : State weaviate) : Prop :=
  index_slot st <> None -> exists c, client_slot st = Some (Some c).

(** Every data or query call made so far went to the cached collection. *)
Definition one_collection {weaviate : WeaviateAPI} (st : State weaviate) : Prop :=
  forall ev coll, In ev (trace st) -> data_target (ev_call ev) = Some coll ->
    index_slot st = Some coll.

(** The trace ends with a client call that raised [e]. *)
Definition raised_by_client (t : list event) (e : exn) : Prop :=
  exists t0 c, t = t0 ++ [{| ev_call := c; ev_outcome := Raised e |}].

(** A store without an index name and without a name in its parameters:
    the in-memory server refuses to create its collection. *)
Definition unnamed_store : WeaviateVectorStore :=
  {| chunker_chunk := whole_text_chunker;
     index_name := None;
     client_settings := {| mode := "local"; settings_fields := [] |};
     vectorstore_params := {| name := None; params_fields := [] |} |}.

(** A computation keeps [I], whether it returns or raises. *)
Definition preserves {weaviate : WeaviateAPI} {A : Type}
    (I : State weaviate -> Prop) (m : M weaviate A) : Prop :=
  forall st, I st -> I (snd (m st)).

(** * Properties *)

(** ** Lists and traces *)

Lemma build_data_objects_from (documents : list Document) (acc : list DataObject) :
  fold_left (fun data_objects document => data_objects ++ [data_object document])
    documents acc = acc ++ map data_object documents.
Proof.
  revert acc. induction documents as [|d l IH]; intros acc; simpl.
  - now rewrite app_nil_r.
  - rewrite IH, <- app_assoc. reflexivity.
Qed.

Lemma build_data_objects_map (documents : list Document) :
  build_data_objects documents = map data_object documents.
Proof. unfold build_data_objects. now rewrite build_data_objects_from. Qed.

Lemma calls_app (t1 t2 : list event) : calls (t1 ++ t2) = calls t1 ++ calls t2.
Proof. unfold calls. apply map_app. Qed.

Lemma filter_none {A : Type} (f : A -> bool) (l : list A) :
  forallb (fun x => negb (f x)) l = true -> filter f l = [].
Proof.
  induction l as [|x l IH]; simpl; intros H; [reflexivity|].
  apply andb_prop in H. destruct H as [Hx Hl].
  destruct (f x); [discriminate|]. now apply IH.
Qed.

Lemma forallb_weaken {A : Type} (f g : A -> bool) (l : list A) :
  (forall x, f x = true -> g x = true) ->
  forallb f l = true -> forallb g l = true.
Proof.
  intros Hfg. induction l as [|x l IH]; simpl; intros H; [reflexivity|].
  apply andb_prop in H. destruct H as [Hx Hl].
  rewrite (Hfg _ Hx), (IH Hl). reflexivity.
Qed.

Lemma submitted_none (l : list call) :
  forallb (fun c => negb (is_insert c)) l = true -> flat_map submitted_by l = [].
Proof.
  induction l as [|c l IH]; simpl; intros H; [reflexivity|].
  apply andb_prop in H. destruct H as [Hc Hl].
  rewrite (IH Hl). destruct c; simpl in *; try reflexivity; discriminate.
Qed.

Lemma new_events_app {weaviate : WeaviateAPI} (st st' : State weaviate) (t : list event) :
  trace st' = trace st ++ t -> new_events st st' = t.
Proof.
  intros H. unfold new_events. rewrite H.
  rewrite skipn_app, skipn_all, Nat.sub_diag. reflexivity.
Qed.

Lemma forwarded_after_ok {A B : Type} (t1 t2 : list event) (a : A) (r : result B) :
  forwarded t1 (Ok a) -> forwarded t2 r -> forwarded (t1 ++ t2) r.
Proof.
  induction t1 as [|ev t1 IH]; simpl; intros H1 H2; [exact H2|].
  destruct (ev_outcome ev).
  - now apply IH.
  - destruct H1 as [[_ H] | [He [Hs H]]]; [discriminate H|].
    right. repeat split; auto.
Qed.

Lemma forwarded_raise {A B : Type} (t : list event) (e : exn) :
  forwarded t (@Raise A e) -> forwarded t (@Raise B e).
Proof.
  induction t as [|ev t IH]; simpl; [trivial|].
  destruct (ev_outcome ev); [exact IH|].
  intros [[Ht He] | [He [Hs H]]].
  - left. split; [exact Ht|]. now inversion He.
  - right. repeat split; auto.
Qed.

(** A run that ended in AttributeError after calls of the connection and
    of the create-or-fetch only, followed by another run. *)
Lemma forwarded_retry {A B : Type} (t1 t2 : list event) (r : result B) :
  forwarded t1 (@Raise A AttributeError) ->
  forallb is_setup (calls t1) = true ->
  forwarded t2 r -> forwarded (t1 ++ t2) r.
Proof.
  induction t1 as [|ev t1 IH]; simpl; intros H1 Hs H2; [exact H2|].
  apply andb_prop in Hs. destruct Hs as [Hev Hs].
  destruct (ev_outcome ev).
  - now apply IH.
  - right. destruct H1 as [[Ht He] | [He [_ H]]].
    + inversion He. subst. repeat split; auto.
    + repeat split; auto.
Qed.

Lemma propagated_forwarded {A : Type} (t : list event) (r : result A) :
  propagated t r -> forwarded t r.
Proof.
  induction t as [|ev t IH]; simpl; [trivial|].
  destruct (ev_outcome ev); [exact IH|]. intros H. now left.
Qed.

(** ** Exceptions are forwarded: rules for the monad *)

Section Forwarding.

Variable weaviate : WeaviateAPI.

Lemma forwards_ret {A : Type} (a : A) : forwards (@ret weaviate A a).
Proof. intros st. exists []. simpl. now rewrite app_nil_r. Qed.

Lemma forwards_raise {A : Type} (e : exn) : forwards (@raise weaviate A e).
Proof. intros st. exists []. simpl. now rewrite app_nil_r. Qed.

Lemma forwards_invoke {A : Type} (c : call)
    (op : World weaviate -> result A * World weaviate) :
  forwards (invoke c op).
Proof.
  intros st. unfold invoke. destruct (op (world st)) as [r w]. simpl.
  eexists. split; [reflexivity|]. destruct r; simpl; auto.
Qed.

Lemma forwards_bind {A B : Type} (m : M weaviate A) (k : A -> M weaviate B) :
  forwards m -> (forall a, forwards (k a)) -> forwards (bind m k).
Proof.
  intros Hm Hk st. unfold bind.
  destruct (Hm st) as [t1 [E1 P1]].
  destruct (m st) as [[a|e] st1]; simpl in *.
  - destruct (Hk a st1) as [t2 [E2 P2]].
    exists (t1 ++ t2). split.
    + rewrite E2, E1, app_assoc. reflexivity.
    + eapply forwarded_after_ok; eassumption.
  - exists t1. split; [assumption|]. eapply forwarded_raise; eassumption.
Qed.

Lemma forwards_cached_property {A : Type} (slot : State weaviate -> option A)
    (store : A -> State weaviate -> State weaviate) (body : M weaviate A) :
  (forall v st, trace (store v st) = trace st) ->
  forwards body -> forwards (cached_property slot store body).
Proof.
  intros Hstore Hbody st. unfold cached_property.
  destruct (slot st) as [v|].
  - exists []. simpl. now rewrite app_nil_r.
  - destruct (Hbody st) as [t [E P]].
    destruct (body st) as [[v|e] st1]; simpl in *; exists t.
    + rewrite Hstore. split; assumption.
    + split; assumption.
Qed.

(** The second evaluation of a property that raised AttributeError. *)
Lemma forwards_instance_attribute {A : Type} (property : M weaviate A) :
  keeps (fun _ => True) is_setup property ->
  forwards property -> forwards (instance_attribute property).
Proof.
  intros Hk Hf st. unfold instance_attribute.
  destruct (Hf st) as [t1 [E1 F1]].
  destruct (Hk st Logic.I) as [_ [t1' [E1' S1]]].
  assert (t1' = t1) by (rewrite E1 in E1'; now apply app_inv_head in E1').
  subst t1'.
  destruct (property st) as [[a|e] st1] eqn:Hp; cbn [fst snd] in *.
  - exists t1. split; assumption.
  - destruct e; try (exists t1; split; assumption).
    destruct (Hf st1) as [t2 [E2 F2]].
    exists (t1 ++ t2). split.
    + rewrite E2, E1, app_assoc. reflexivity.
    + eapply forwarded_retry; eassumption.
Qed.

Lemma forwards_returning {A : Type} (r : result A) : forwards (@returning weaviate A r).
Proof. intros st. exists []. simpl. now rewrite app_nil_r. Qed.

Lemma forwards_item0 {A : Type} (l : list A) : forwards (@item0 weaviate A l).
Proof. destruct l; [apply forwards_raise | apply forwards_ret]. Qed.

Lemma forwards_getattr {A : Type} (o : option A) : forwards (@getattr weaviate A o).
Proof. destruct o; [apply forwards_ret | apply forwards_raise]. Qed.

Lemma forwards_check_keywords (explicit : list string) (kw : kwargs) :
  forwards (@check_keywords weaviate explicit kw).
Proof.
  unfold check_keywords.
  destruct (existsb _ explicit); [apply forwards_raise | apply forwards_ret].
Qed.

End Forwarding.

Create HintDb forwarding.

#[local] Hint Resolve forwards_ret forwards_raise forwards_invoke forwards_item0
  forwards_getattr forwards_check_keywords forwards_returning : forwarding.

Ltac forwarding :=
  repeat first
    [ assumption
    | apply forwards_bind; [|intros ?]
    | apply forwards_cached_property; [reflexivity|]
    | solve [auto with forwarding]
    | match goal with
      | |- forwards (if ?b then _ else _) => destruct b
      | |- forwards (let _ := _ in _) => cbv zeta
      end ].

(** ** Invariants on the slots and on the calls added *)

Section Keeping.

Variable weaviate : WeaviateAPI.
Variable I : State weaviate -> Prop.
Variable P : call -> bool.

(** [I] reads only the two slots. *)
Hypothesis I_slots : forall st st' : State weaviate,
  client_slot st = client_slot st' -> index_slot st = index_slot st' -> I st -> I st'.

Lemma keeps_ret {A : Type} (a : A) : keeps I P (@ret weaviate A a).
Proof.
  intros st HI. simpl. split; [exact HI|].
  exists []. now rewrite app_nil_r.
Qed.

Lemma keeps_raise {A : Type} (e : exn) : keeps I P (@raise weaviate A e).
Proof.
  intros st HI. simpl. split; [exact HI|].
  exists []. now rewrite app_nil_r.
Qed.

Lemma keeps_invoke {A : Type} (c : call)
    (op : World weaviate -> result A * World weaviate) :
  P c = true -> keeps I P (invoke c op).
Proof.
  intros Hc st HI. unfold invoke. destruct (op (world st)) as [r w]. simpl. split.
  - eapply I_slots; [| |exact HI]; reflexivity.
  - eexists. split; [reflexivity|]. simpl. now rewrite Hc.
Qed.

Lemma keeps_bind {A B : Type} (m : M weaviate A) (k : A -> M weaviate B) :
  keeps I P m -> (forall a, keeps I P (k a)) -> keeps I P (bind m k).
Proof.
  intros Hm Hk st HI. unfold bind.
  destruct (Hm st HI) as [I1 [t1 [E1 F1]]].
  destruct (m st) as [[a|e] st1]; simpl in *.
  - destruct (Hk a st1 I1) as [I2 [t2 [E2 F2]]].
    split; [exact I2|]. exists (t1 ++ t2). split.
    + rewrite E2, E1, app_assoc. reflexivity.
    + rewrite calls_app, forallb_app, F1, F2. reflexivity.
  - split; [exact I1|]. exists t1. split; assumption.
Qed.

Lemma keeps_item0 {A : Type} (l : list A) : keeps I P (@item0 weaviate A l).
Proof. destruct l; [apply keeps_raise | apply keeps_ret]. Qed.

Lemma keeps_getattr {A : Type} (o : option A) : keeps I P (@getattr weaviate A o).
Proof. destruct o; [apply keeps_ret | apply keeps_raise]. Qed.

Lemma keeps_check_keywords (explicit : list string) (kw : kwargs) :
  keeps I P (@check_keywords weaviate explicit kw).
Proof.
  unfold check_keywords.
  destruct (existsb _ explicit); [apply keeps_raise | apply keeps_ret].
Qed.

(** A property whose slot is known to be filled is never recomputed. *)
Lemma keeps_cached_hit {A : Type} (slot : State weaviate -> option A)
    (store : A -> State weaviate -> State weaviate) (body : M weaviate A) :
  (forall st, I st -> slot st <> None) ->
  keeps I P (cached_property slot store body).
Proof.
  intros Hfull st HI. unfold cached_property.
  specialize (Hfull st HI). destruct (slot st) as [v|]; [|congruence].
  simpl. split; [exact HI|]. exists []. now rewrite app_nil_r.
Qed.

Lemma keeps_cached_property {A : Type} (slot : State weaviate -> option A)
    (store : A -> State weaviate -> State weaviate) (body : M weaviate A) :
  (forall v st, I st -> I (store v st)) ->
  (forall v st, trace (store v st) = trace st) ->
  keeps I P body -> keeps I P (cached_property slot store body).
Proof.
  intros HstoreI Hstore Hbody st HI. unfold cached_property.
  destruct (slot st) as [v|].
  - simpl. split; [exact HI|]. exists []. now rewrite app_nil_r.
  - destruct (Hbody st HI) as [I1 [t [E F]]].
    destruct (body st) as [[v|e] st1]; simpl in *.
    + split; [now apply HstoreI|]. exists t. rewrite Hstore. split; assumption.
    + split; [exact I1|]. exists t. split; assumption.
Qed.

Lemma keeps_instance_attribute {A : Type} (property : M weaviate A) :
  keeps I P property -> keeps I P (instance_attribute property).
Proof.
  intros Hp st HI. unfold instance_attribute.
  destruct (Hp st HI) as [I1 [t1 [E1 F1]]].
  destruct (property st) as [[a|e] st1]; cbn [fst snd] in *.
  - split; [exact I1|]. exists t1. split; assumption.
  - destruct e; try (split; [exact I1|]; exists t1; split; assumption).
    destruct (Hp st1 I1) as [I2 [t2 [E2 F2]]].
    split; [exact I2|]. exists (t1 ++ t2). split.
    + rewrite E2, E1, app_assoc. reflexivity.
    + rewrite calls_app, forallb_app, F1, F2. reflexivity.
Qed.

Lemma keeps_returning {A : Type} (r : result A) : keeps I P (@returning weaviate A r).
Proof.
  intros st HI. simpl. split; [exact HI|].
  exists []. now rewrite app_nil_r.
Qed.

Variable types : TypesModule.
Variable self : WeaviateVectorStore.

Lemma keeps_client_body :
  (forall c, is_connect c = true -> P c = true) ->
  keeps I P (_client_body weaviate types self).
Proof.
  intros HP. unfold _client_body. cbv zeta.
  repeat match goal with
         | |- keeps _ _ (if ?b then _ else _) => destruct b
         end;
    try apply keeps_ret;
    (apply keeps_bind; [apply keeps_invoke; apply HP; reflexivity
                       | intros ?; apply keeps_ret]).
Qed.

Hypothesis keeps_client : keeps I P (_client weaviate types self).

Lemma keeps_index_body :
  (forall c, is_collections c = true -> P c = true) ->
  keeps I P (_index_body weaviate types self).
Proof.
  intros HP. unfold _index_body. cbv zeta.
  apply keeps_bind; [exact keeps_client | intros c].
  apply keeps_bind; [apply keeps_getattr | intros client].
  apply keeps_bind; [apply keeps_invoke; apply HP; reflexivity | intros found].
  destruct found;
    (apply keeps_bind; [exact keeps_client | intros c']);
    (apply keeps_bind; [apply keeps_getattr | intros client']);
    apply keeps_invoke; apply HP; reflexivity.
Qed.

Hypothesis keeps_index : keeps I P (_index weaviate types self).
Hypothesis P_other : forall c, is_setup c = false -> P c = true.

Lemma keeps_add (input : add_input) (kw : kwargs) :
  keeps I P (add weaviate types self input kw).
Proof.
  unfold add, add_documents. cbv zeta.
  destruct (Nat.ltb _ 2).
  - apply keeps_bind; [exact keeps_index | intros coll].
    apply keeps_bind; [apply keeps_item0 | intros d1].
    apply keeps_bind; [apply keeps_item0 | intros d2].
    apply keeps_bind; [apply keeps_check_keywords | intros _].
    apply keeps_invoke, P_other. reflexivity.
  - apply keeps_bind; [exact keeps_index | intros coll].
    apply keeps_invoke, P_other. reflexivity.
Qed.

Lemma keeps_retrieve (query : string) (kw : kwargs) :
  keeps I P (retrieve weaviate types self query kw).
Proof.
  unfold retrieve.
  apply keeps_bind; [exact keeps_index | intros coll].
  apply keeps_bind; [apply keeps_check_keywords | intros _].
  apply keeps_bind; [apply keeps_invoke, P_other; reflexivity | intros qr].
  apply keeps_bind; [apply keeps_item0 | intros o].
  apply keeps_returning.
Qed.

Lemma keeps_close_connection : keeps I P (close_connection weaviate types self).
Proof.
  unfold close_connection.
  apply keeps_bind; [exact keeps_client | intros c].
  apply keeps_bind; [apply keeps_getattr | intros client].
  apply keeps_invoke, P_other. reflexivity.
Qed.

(** Whatever the instance is asked to do next keeps [I] and adds only
    calls that satisfy [P]. *)
Lemma keeps_run_ops (ops : list operation) (st : State weaviate) :
  I st ->
  I (run_ops weaviate types self ops st) /\
  exists t, trace (run_ops weaviate types self ops st) = trace st ++ t /\
            forallb P (calls t) = true.
Proof.
  unfold run_ops. revert st. induction ops as [|o ops IH]; intros st HI; simpl.
  - split; [exact HI|]. exists []. now rewrite app_nil_r.
  - assert (H1 : I (run_op weaviate types self st o) /\
                 exists t, trace (run_op weaviate types self st o) = trace st ++ t /\
                           forallb P (calls t) = true).
    { destruct o; simpl.
      - apply keeps_add; exact HI.
      - apply keeps_retrieve; exact HI.
      - apply keeps_close_connection; exact HI.
      - apply keeps_client; exact HI.
      - apply keeps_index; exact HI. }
    destruct H1 as [I1 [t1 [E1 F1]]].
    destruct (IH _ I1) as [I2 [t2 [E2 F2]]].
    split; [exact I2|]. exists (t1 ++ t2). split.
    + rewrite E2, E1, app_assoc. reflexivity.
    + rewrite calls_app, forallb_app, F1, F2. reflexivity.
Qed.

End Keeping.

(** ** Facts shared by the claims *)

Section Operations.

Variable weaviate : WeaviateAPI.
Variable types : TypesModule.
Variable self : WeaviateVectorStore.

Lemma invoke_result {A : Type} (c : call)
    (op : World weaviate -> result A * World weaviate) (st : State weaviate) :
  fst (invoke c op st) = fst (op (world st)).
Proof. unfold invoke. now destruct (op (world st)). Qed.

Lemma invoke_trace {A : Type} (c : call)
    (op : World weaviate -> result A * World weaviate) (st : State weaviate) :
  trace (snd (invoke c op st)) =
  trace st ++ [{| ev_call := c; ev_outcome := outcome_of (fst (op (world st))) |}].
Proof. unfold invoke. now destruct (op (world st)). Qed.

Lemma invoke_slots {A : Type} (c : call)
    (op : World weaviate -> result A * World weaviate) (st : State weaviate) :
  client_slot (snd (invoke c op st)) = client_slot st /\
  index_slot (snd (invoke c op st)) = index_slot st /\
  world (snd (invoke c op st)) = snd (op (world st)).
Proof. unfold invoke. now destruct (op (world st)). Qed.

(** The lookup of a property is its evaluation, or two of them. *)
Lemma instance_attribute_other {A : Type} (property : M weaviate A)
    (st st1 : State weaviate) (r : result A) :
  property st = (r, st1) -> r <> Raise AttributeError ->
  instance_attribute property st = (r, st1).
Proof.
  intros H Hr. unfold instance_attribute. rewrite H.
  destruct r as [a|e]; [reflexivity|]. destruct e; try reflexivity. now contradiction Hr.
Qed.

Lemma instance_attribute_again {A : Type} (property : M weaviate A)
    (st st1 : State weaviate) :
  property st = (Raise AttributeError, st1) ->
  instance_attribute property st = property st1.
Proof. intros H. unfold instance_attribute. now rewrite H. Qed.

Lemma instance_attribute_cases {A : Type} (property : M weaviate A) (st : State weaviate) :
  (instance_attribute property st = property st /\
   fst (property st) <> Raise AttributeError) \/
  (exists st1, property st = (Raise AttributeError, st1) /\
               instance_attribute property st = property st1).
Proof.
  unfold instance_attribute. destruct (property st) as [[a|e] st1] eqn:H.
  - left. split; [reflexivity | discriminate].
  - destruct e; try (left; split; [reflexivity | discriminate]).
    right. exists st1. split; reflexivity.
Qed.

(** The calls of the connection and of the create-or-fetch are the only
    ones the two properties make. *)
Lemma client_only_setup : keeps (fun _ => True) is_setup (_client weaviate types self).
Proof.
  apply keeps_instance_attribute.
  apply keeps_cached_property; auto.
  apply keeps_client_body; auto.
  intros c Hc. unfold is_setup. now rewrite Hc.
Qed.

Lemma index_only_setup : keeps (fun _ => True) is_setup (_index weaviate types self).
Proof.
  apply keeps_instance_attribute.
  apply keeps_cached_property; auto.
  apply keeps_index_body; auto using client_only_setup.
  intros c Hc. unfold is_setup. rewrite Hc. apply orb_true_r.
Qed.

Lemma index_trace (st st1 : State weaviate) (coll : handle) :
  _index weaviate types self st = (Ok coll, st1) ->
  exists t, trace st1 = trace st ++ t /\ forallb is_setup (calls t) = true.
Proof.
  intros H. destruct (index_only_setup st Logic.I) as [_ Ht].
  rewrite H in Ht. exact Ht.
Qed.

Lemma setup_not_insert (l : list call) :
  forallb is_setup l = true -> forallb (fun c => negb (is_insert c)) l = true.
Proof.
  apply forallb_weaken. intros c; destruct c; cbv; intros H; try reflexivity; discriminate H.
Qed.

Lemma setup_not_near_text (l : list call) :
  forallb is_setup l = true -> forallb (fun c => negb (is_near_text c)) l = true.
Proof.
  apply forallb_weaken. intros c; destruct c; cbv; intros H; try reflexivity; discriminate H.
Qed.

(** A value a property returned is in its slot, and a filled slot answers
    without running the body. *)
Lemma client_property_cached (st st1 : State weaviate) (c : option handle) :
  _client_property weaviate types self st = (Ok c, st1) -> client_slot st1 = Some c.
Proof.
  unfold _client_property, cached_property. destruct (client_slot st) as [v|] eqn:E.
  - intros H. inversion H. subst. exact E.
  - destruct (_client_body weaviate types self st) as [[v|e] st']; intros H;
      inversion H. reflexivity.
Qed.

Lemma client_cached (st st1 : State weaviate) (c : option handle) :
  _client weaviate types self st = (Ok c, st1) -> client_slot st1 = Some c.
Proof.
  intros H. unfold _client in H.
  destruct (instance_attribute_cases (_client_property weaviate types self) st)
    as [[E _] | [s [_ E]]]; rewrite E in H; exact (client_property_cached _ _ _ H).
Qed.

Lemma client_hit (st : State weaviate) (c : option handle) :
  client_slot st = Some c -> _client weaviate types self st = (Ok c, st).
Proof.
  intros H. unfold _client, instance_attribute, _client_property, cached_property.
  now rewrite H.
Qed.

Lemma index_property_cached (st st1 : State weaviate) (coll : handle) :
  _index_property weaviate types self st = (Ok coll, st1) -> index_slot st1 = Some coll.
Proof.
  unfold _index_property, cached_property. destruct (index_slot st) as [v|] eqn:E.
  - intros H. inversion H. subst. exact E.
  - destruct (_index_body weaviate types self st) as [[v|e] st']; intros H;
      inversion H. reflexivity.
Qed.

Lemma index_cached (st st1 : State weaviate) (coll : handle) :
  _index weaviate types self st = (Ok coll, st1) -> index_slot st1 = Some coll.
Proof.
  intros H. unfold _index in H.
  destruct (instance_attribute_cases (_index_property weaviate types self) st)
    as [[E _] | [s [_ E]]]; rewrite E in H; exact (index_property_cached _ _ _ H).
Qed.

Lemma index_hit (st : State weaviate) (coll : handle) :
  index_slot st = Some coll -> _index weaviate types self st = (Ok coll, st).
Proof.
  intros H. unfold _index, instance_attribute, _index_property, cached_property.
  now rewrite H.
Qed.

(** The single-insert branch with one document, once the collection is there. *)
Lemma add_documents_one (d : Document) (kw : kwargs) (st st1 : State weaviate)
    (coll : handle) :
  _index weaviate types self st = (Ok coll, st1) ->
  has_key "properties" kw = false -> has_key "uuid" kw = false ->
  add_documents weaviate types self [d] kw st =
  invoke (DataInsert coll [("text", PyStr (text d))] (id d) kw)
    (data_insert weaviate coll [("text", PyStr (text d))] (id d) kw) st1.
Proof.
  intros Hi Hp Hu. unfold add_documents.
  cbn [Nat.ltb Nat.leb List.length]. unfold bind at 1. rewrite Hi.
  unfold bind, item0, ret, check_keywords. cbn [existsb].
  rewrite Hp, Hu. reflexivity.
Qed.

(** The single-insert branch with no document. *)
Lemma add_documents_none (kw : kwargs) (st st1 : State weaviate) (coll : handle) :
  _index weaviate types self st = (Ok coll, st1) ->
  add_documents weaviate types self [] kw st = (Raise IndexError, st1).
Proof.
  intros Hi. unfold add_documents.
  cbn [Nat.ltb Nat.leb List.length]. unfold bind at 1. rewrite Hi. reflexivity.
Qed.

(** The batch branch. *)
Lemma add_documents_many (documents : list Document) (kw : kwargs)
    (st st1 : State weaviate) (coll : handle) :
  _index weaviate types self st = (Ok coll, st1) ->
  2 <= List.length documents ->
  add_documents weaviate types self documents kw st =
  invoke (DataInsertMany coll (map data_object documents))
    (data_insert_many weaviate coll (map data_object documents)) st1.
Proof.
  intros Hi Hlen. unfold add_documents.
  destruct (Nat.ltb_spec (List.length documents) 2) as [Hlt|_]; [lia|].
  cbv zeta. rewrite build_data_objects_map.
  unfold bind. rewrite Hi. reflexivity.
Qed.

(** When the collection cannot be obtained, [add] stops there. *)
Lemma add_documents_no_index (documents : list Document) (kw : kwargs)
    (st st1 : State weaviate) (e : exn) :
  _index weaviate types self st = (Raise e, st1) ->
  add_documents weaviate types self documents kw st = (Raise e, st1).
Proof.
  intros Hi. unfold add_documents.
  destruct (Nat.ltb _ 2); cbv zeta; unfold bind; rewrite Hi; reflexivity.
Qed.

End Operations.

Arguments instance_attribute_other {weaviate A} property st st1 r _ _.
Arguments instance_attribute_again {weaviate A} property st st1 _.
Arguments instance_attribute_cases {weaviate A} property st.

(** ** add *)

Section AddClaims.

Variable weaviate : WeaviateAPI.
Variable types : TypesModule.
Variable self : WeaviateVectorStore.

Lemma add_as_documents (input : add_input) (kw : kwargs) (st : State weaviate) :
  add weaviate types self input kw st =
  add_documents weaviate types self (documents_of self input) kw st.
Proof. destruct input; reflexivity. Qed.

(** The calls [add] makes before its insert are not inserts. *)
Lemma add_new_events (input : add_input) (kw : kwargs) (st st1 : State weaviate)
    (coll : handle) (c : call) (r : outcome) :
  _index weaviate types self st = (Ok coll, st1) ->
  trace (snd (add weaviate types self input kw st)) =
    trace st1 ++ [{| ev_call := c; ev_outcome := r |}] ->
  exists t, new_events st (snd (add weaviate types self input kw st)) =
              t ++ [{| ev_call := c; ev_outcome := r |}] /\
            forallb (fun x => negb (is_insert x)) (calls t) = true.
Proof.
  intros Hi Ht. destruct (index_trace _ _ _ _ _ _ Hi) as [t [E F]].
  exists t. split.
  - apply new_events_app. rewrite Ht, E, app_assoc. reflexivity.
  - now apply setup_not_insert.
Qed.

(** C1, as amended: once the collection handle is obtained, a list of
    exactly one document leads to exactly one single insert, with properties
    [{"text": document.text}], uuid [document.id] and the caller's keyword
    arguments (which must not repeat [properties] or [uuid]); a list of two
    or more documents leads to exactly one [insert_many] of one DataObject
    per document, in the same order. In both cases the result of [add] is
    the result of that call. *)
Theorem add_insert_policy (input : add_input) (kw : kwargs)
    (st st1 : State weaviate) (coll : handle) :
  _index weaviate types self st = (Ok coll, st1) ->
  (forall d, documents_of self input = [d] ->
     has_key "properties" kw = false -> has_key "uuid" kw = false ->
     fst (add weaviate types self input kw st) =
       fst (data_insert weaviate coll [("text", PyStr (text d))] (id d) kw (world st1)) /\
     insert_calls (new_events st (snd (add weaviate types self input kw st))) =
       [DataInsert coll [("text", PyStr (text d))] (id d) kw]) /\
  (2 <= List.length (documents_of self input) ->
     fst (add weaviate types self input kw st) =
       fst (data_insert_many weaviate coll
              (map data_object (documents_of self input)) (world st1)) /\
     insert_calls (new_events st (snd (add weaviate types self input kw st))) =
       [DataInsertMany coll (map data_object (documents_of self input))]).
Proof.
  intros Hi. split.
  - intros d Hd Hp Hu.
    assert (E : add weaviate types self input kw st =
                invoke (DataInsert coll [("text", PyStr (text d))] (id d) kw)
                  (data_insert weaviate coll [("text", PyStr (text d))] (id d) kw) st1).
    { rewrite add_as_documents, Hd. now apply add_documents_one. }
    split.
    + rewrite E. apply invoke_result.
    + destruct (add_new_events input kw st st1 coll _ _ Hi
                  ltac:(rewrite E; apply invoke_trace)) as [t [Et Ft]].
      rewrite Et. unfold insert_calls. rewrite calls_app, filter_app.
      rewrite (filter_none _ _ Ft). reflexivity.
  - intros Hlen.
    assert (E : add weaviate types self input kw st =
                invoke (DataInsertMany coll (map data_object (documents_of self input)))
                  (data_insert_many weaviate coll
                     (map data_object (documents_of self input))) st1).
    { rewrite add_as_documents. now apply add_documents_many. }
    split.
    + rewrite E. apply invoke_result.
    + destruct (add_new_events input kw st st1 coll _ _ Hi
                  ltac:(rewrite E; apply invoke_trace)) as [t [Et Ft]].
      rewrite Et. unfold insert_calls. rewrite calls_app, filter_app.
      rewrite (filter_none _ _ Ft). reflexivity.
Qed.

(** C3: a string is inserted as the chunks [self.chunker.chunk] makes of it,
    [add] on the string being [add] on that list; a list of Documents is
    inserted as it is: the objects handed to the database are the
    documents' own text and id, one per document, in the list's order.
    (Stated for a run that obtains the collection handle and whose keyword
    arguments do not repeat [properties] or [uuid].) *)
Theorem add_chunks_or_as_is (kw : kwargs) (st st1 : State weaviate) (coll : handle) :
  _index weaviate types self st = (Ok coll, st1) ->
  has_key "properties" kw = false -> has_key "uuid" kw = false ->
  (forall s,
     add weaviate types self (TStr s) kw st =
       add weaviate types self (TDocs (chunker_chunk self s)) kw st /\
     submitted (new_events st (snd (add weaviate types self (TStr s) kw st))) =
       map data_object (chunker_chunk self s)) /\
  (forall l,
     submitted (new_events st (snd (add weaviate types self (TDocs l) kw st))) =
       map data_object l).
Proof.
  intros Hi Hp Hu.
  assert (L : forall l,
     submitted (new_events st (snd (add weaviate types self (TDocs l) kw st))) =
       map data_object l).
  { intros l. destruct (index_trace _ _ _ _ _ _ Hi) as [t0 [E0 F0]].
    destruct l as [|d [|d' l']].
    - change (add weaviate types self (TDocs []) kw st)
        with (add_documents weaviate types self [] kw st).
      rewrite (add_documents_none _ _ _ kw st st1 coll Hi). simpl snd.
      rewrite (new_events_app _ _ _ E0). unfold submitted.
      apply submitted_none. now apply setup_not_insert.
    - destruct (add_new_events (TDocs [d]) kw st st1 coll
                  (DataInsert coll [("text", PyStr (text d))] (id d) kw)
                  (outcome_of (fst (data_insert weaviate coll
                     [("text", PyStr (text d))] (id d) kw (world st1)))) Hi) as [t [Et Ft]].
      { change (add weaviate types self (TDocs [d]) kw st)
          with (add_documents weaviate types self [d] kw st).
        rewrite (add_documents_one _ _ _ d kw st st1 coll Hi Hp Hu).
        apply invoke_trace. }
      rewrite Et. unfold submitted. rewrite calls_app, flat_map_app.
      rewrite (submitted_none _ Ft). reflexivity.
    - destruct (add_new_events (TDocs (d :: d' :: l')) kw st st1 coll
                  (DataInsertMany coll (map data_object (d :: d' :: l')))
                  (outcome_of (fst (data_insert_many weaviate coll
                     (map data_object (d :: d' :: l')) (world st1)))) Hi) as [t [Et Ft]].
      { change (add weaviate types self (TDocs (d :: d' :: l')) kw st)
          with (add_documents weaviate types self (d :: d' :: l') kw st).
        rewrite (add_documents_many _ _ _ (d :: d' :: l') kw st st1 coll Hi
                   ltac:(simpl; lia)).
        apply invoke_trace. }
      rewrite Et. unfold submitted. rewrite calls_app, flat_map_app.
      rewrite (submitted_none _ Ft). simpl. now rewrite app_nil_r. }
  split; [|exact L].
  intros s. split; [reflexivity|].
  change (add weaviate types self (TStr s) kw st)
    with (add weaviate types self (TDocs (chunker_chunk self s)) kw st).
  apply L.
Qed.

(** C8: with no document (an empty list, or a string the chunker splits
    into nothing) [add] takes the single-insert branch and never returns:
    no insert call is made, and once the collection handle is obtained the
    failure is the IndexError of [documents[0]]. With one document the
    indexing succeeds: the run reaches the insert call and [add] returns
    what that call returns. *)
Theorem add_needs_a_document (input : add_input) (kw : kwargs) (st : State weaviate) :
  (documents_of self input = [] ->
     Nat.ltb (List.length (documents_of self input)) 2 = true /\
     (exists e, fst (add weaviate types self input kw st) = Raise e) /\
     insert_calls (new_events st (snd (add weaviate types self input kw st))) = [] /\
     (forall coll st1, _index weaviate types self st = (Ok coll, st1) ->
        add weaviate types self input kw st = (Raise IndexError, st1))) /\
  (forall d, documents_of self input = [d] ->
     forall coll st1, _index weaviate types self st = (Ok coll, st1) ->
     has_key "properties" kw = false -> has_key "uuid" kw = false ->
     add weaviate types self input kw st =
       invoke (DataInsert coll [("text", PyStr (text d))] (id d) kw)
         (data_insert weaviate coll [("text", PyStr (text d))] (id d) kw) st1).
Proof.
  split.
  - intros Hd. rewrite add_as_documents, Hd. split; [reflexivity|].
    destruct (index_only_setup weaviate types self st Logic.I) as [_ [t [Et Ft]]].
    destruct (_index weaviate types self st) as [[coll|e] st1] eqn:Hi; simpl in Et.
    + rewrite (add_documents_none _ _ _ kw st st1 coll Hi). simpl.
      split; [now exists IndexError|]. split.
      * rewrite (new_events_app _ _ _ Et). unfold insert_calls.
        apply filter_none. now apply setup_not_insert.
      * intros coll' st1' H. inversion H. reflexivity.
    + rewrite (add_documents_no_index _ _ _ [] kw st st1 e Hi). simpl.
      split; [now exists e|]. split.
      * rewrite (new_events_app _ _ _ Et). unfold insert_calls.
        apply filter_none. now apply setup_not_insert.
      * intros coll' st1' H. discriminate H.
  - intros d Hd coll st1 Hi Hp Hu.
    rewrite add_as_documents, Hd. now apply add_documents_one.
Qed.

End AddClaims.

(** ** retrieve *)

Section RetrieveClaims.

Variable weaviate : WeaviateAPI.
Variable types : TypesModule.
Variable self : WeaviateVectorStore.

Lemma retrieve_after_index (query : string) (kw : kwargs) (st st1 : State weaviate)
    (coll : handle) :
  _index weaviate types self st = (Ok coll, st1) ->
  has_key "query" kw = false ->
  retrieve weaviate types self query kw st =
  bind (invoke (QueryNearText coll query kw) (query_near_text weaviate coll query kw))
    (fun query_result =>
       bind (item0 (objects query_result))
         (fun result => returning (from_response types result))) st1.
Proof.
  intros Hi Hq. unfold retrieve. unfold bind at 1. rewrite Hi.
  unfold bind at 1. unfold check_keywords. cbn [existsb]. rewrite Hq. reflexivity.
Qed.

Lemma retrieve_trace (query : string) (kw : kwargs) (st st1 : State weaviate)
    (coll : handle) :
  _index weaviate types self st = (Ok coll, st1) ->
  has_key "query" kw = false ->
  trace (snd (retrieve weaviate types self query kw st)) =
  trace st1 ++ [{| ev_call := QueryNearText coll query kw;
                   ev_outcome := outcome_of
                     (fst (query_near_text weaviate coll query kw (world st1))) |}].
Proof.
  intros Hi Hq. rewrite (retrieve_after_index _ _ _ _ _ Hi Hq).
  unfold bind, invoke.
  destruct (query_near_text weaviate coll query kw (world st1)) as [[qr|e] w];
    [|reflexivity].
  destruct (objects qr); reflexivity.
Qed.

(** C4, as amended: once the collection handle is obtained (and the keyword
    arguments do not repeat [query]), [retrieve] issues exactly one
    near_text query, with that text, against the collection; when the query
    returns a result with at least one object, the outcome of [retrieve] is
    that of [from_response] on the first object of the result: what
    [from_response] returns is returned, what it raises is raised, and no
    other object of the result is looked at. *)
Theorem retrieve_first_object (query : string) (kw : kwargs)
    (st st1 : State weaviate) (coll : handle) :
  _index weaviate types self st = (Ok coll, st1) ->
  has_key "query" kw = false ->
  near_text_calls (new_events st (snd (retrieve weaviate types self query kw st))) =
    [QueryNearText coll query kw] /\
  (forall query_result w result others,
     query_near_text weaviate coll query kw (world st1) = (Ok query_result, w) ->
     objects query_result = result :: others ->
     fst (retrieve weaviate types self query kw st) = from_response types result).
Proof.
  intros Hi Hq. split.
  - destruct (index_trace _ _ _ _ _ _ Hi) as [t [E F]].
    rewrite (new_events_app st _ (t ++ [{| ev_call := QueryNearText coll query kw;
                   ev_outcome := outcome_of
                     (fst (query_near_text weaviate coll query kw (world st1))) |}])).
    + unfold near_text_calls. rewrite calls_app, filter_app.
      rewrite (filter_none _ _ (setup_not_near_text _ F)). reflexivity.
    + rewrite (retrieve_trace _ _ _ _ _ Hi Hq), E, app_assoc. reflexivity.
  - intros qr w o rest Hn Ho.
    rewrite (retrieve_after_index _ _ _ _ _ Hi Hq).
    unfold bind, invoke. rewrite Hn, Ho. reflexivity.
Qed.

(** C9: when the near_text query returns a result without objects,
    [retrieve] fails with the IndexError of [query_result.objects[0]]; and
    whenever [retrieve] returns, the query had returned a result with at
    least one object, and what is returned is what [from_response] made of
    the first one. *)
Theorem retrieve_needs_an_object (query : string) (kw : kwargs) (st : State weaviate) :
  (forall coll st1 query_result w,
     _index weaviate types self st = (Ok coll, st1) ->
     has_key "query" kw = false ->
     query_near_text weaviate coll query kw (world st1) = (Ok query_result, w) ->
     objects query_result = [] ->
     fst (retrieve weaviate types self query kw st) = Raise IndexError) /\
  (forall v,
     fst (retrieve weaviate types self query kw st) = Ok v ->
     exists coll st1 query_result w result others,
       _index weaviate types self st = (Ok coll, st1) /\
       query_near_text weaviate coll query kw (world st1) = (Ok query_result, w) /\
       objects query_result = result :: others /\
       from_response types result = Ok v).
Proof.
  split.
  - intros coll st1 qr w Hi Hq Hn Ho.
    rewrite (retrieve_after_index _ _ _ _ _ Hi Hq).
    unfold bind, invoke. rewrite Hn, Ho. reflexivity.
  - intros v. unfold retrieve. unfold bind at 1.
    destruct (_index weaviate types self st) as [[coll|e] st1]; [|discriminate].
    unfold bind at 1. unfold check_keywords.
    destruct (existsb _ ["query"]); [discriminate|]. unfold ret at 1.
    unfold bind at 1. unfold invoke.
    destruct (query_near_text weaviate coll query kw (world st1)) as [[qr|e] w] eqn:Hn;
      [|discriminate].
    unfold bind. destruct (objects qr) as [|o rest] eqn:Ho; [discriminate|].
    simpl. intros H.
    exists coll, st1, qr, w, o, rest. repeat split; assumption.
Qed.

End RetrieveClaims.

(** ** The connection *)

Section ClientClaims.

Variable weaviate : WeaviateAPI.
Variable types : TypesModule.
Variable self : WeaviateVectorStore.

Lemma client_miss (st : State weaviate) :
  client_slot st = None ->
  _client_property weaviate types self st =
  match _client_body weaviate types self st with
  | (Ok v, st') => (Ok v, set_client_slot v st')
  | (Raise e, st') => (Raise e, st')
  end.
Proof. intros H. unfold _client_property, cached_property. now rewrite H. Qed.

Lemma client_body_cases (st : State weaviate) :
  _client_body weaviate types self st = (Ok None, st) \/
  exists c op, is_connect c = true /\
    _client_body weaviate types self st =
    bind (invoke c op) (fun h => ret (Some h)) st.
Proof.
  unfold _client_body. cbv zeta.
  repeat match goal with
         | |- context [if ?b then _ else _] => destruct b
         end;
    try (left; reflexivity);
    (right; eexists _, _; split; [|reflexivity]; reflexivity).
Qed.

(** The body of [_client] is one connect call, the same in every state, or
    no call at all. *)
Lemma client_body_shape :
  (forall st, _client_body weaviate types self st = (Ok None, st)) \/
  exists c op, is_connect c = true /\
    forall st, _client_body weaviate types self st =
               bind (invoke c op) (fun h => ret (Some h)) st.
Proof.
  unfold _client_body. cbv zeta.
  repeat match goal with
         | |- context [if ?b then _ else _] => destruct b
         end;
    try (left; intros st; reflexivity);
    (right; eexists _, _; split; [|intros st; reflexivity]; reflexivity).
Qed.

Lemma client_property_hit (st : State weaviate) (v : option handle) :
  client_slot st = Some v -> _client_property weaviate types self st = (Ok v, st).
Proof. intros H. unfold _client_property, cached_property. now rewrite H. Qed.

(** The outcome of one evaluation of [_client] that finds nothing cached. *)
Lemma client_miss_cases (st : State weaviate) :
  client_slot st = None ->
  _client_property weaviate types self st = (Ok None, set_client_slot None st) \/
  exists c r w,
    is_connect c = true /\
    let st' := {| world := w; client_slot := None; index_slot := index_slot st;
                  trace := trace st ++ [{| ev_call := c; ev_outcome := outcome_of r |}] |} in
    _client_property weaviate types self st =
    match r with
    | Ok h => (Ok (Some h), set_client_slot (Some h) st')
    | Raise e => (Raise e, st')
    end.
Proof.
  intros Hs. rewrite (client_miss st Hs).
  destruct (client_body_cases st) as [E | [c [op [Hc E]]]]; rewrite E.
  - left. reflexivity.
  - right. unfold bind, invoke, ret. rewrite Hs.
    destruct (op (world st)) as [r w]. exists c, r, w. split; [exact Hc|].
    destruct r; reflexivity.
Qed.

(** One evaluation of the property when its body is one connect call. *)
Lemma client_property_invoke (st : State weaviate) (c : call)
    (op : World weaviate -> result handle * World weaviate) :
  client_slot st = None ->
  _client_body weaviate types self st =
    bind (invoke c op) (fun h => ret (Some h)) st ->
  fst (_client_property weaviate types self st) = handed_on (fst (op (world st))) /\
  trace (snd (_client_property weaviate types self st)) =
    trace st ++ [{| ev_call := c; ev_outcome := outcome_of (fst (op (world st))) |}] /\
  world (snd (_client_property weaviate types self st)) = snd (op (world st)) /\
  (forall e, fst (op (world st)) = Raise e ->
             client_slot (snd (_client_property weaviate types self st)) = None).
Proof.
  intros Hs Hb. rewrite (client_miss st Hs), Hb.
  unfold bind, invoke, ret. destruct (op (world st)) as [[h|e] w]; cbn.
  - repeat split. intros e H. discriminate H.
  - repeat split. intros e' _. exact Hs.
Qed.

Lemma opens_with_invoke (st : State weaviate) (c : call)
    (op : World weaviate -> result handle * World weaviate) :
  client_slot st = None ->
  (forall s, _client_body weaviate types self s =
             bind (invoke c op) (fun h => ret (Some h)) s) ->
  opens_with weaviate types self st c op.
Proof.
  intros Hs Hb.
  destruct (client_property_invoke st c op Hs (Hb st)) as [H1 [H2 [H3 H4]]].
  unfold opens_with, _client.
  destruct (instance_attribute_cases (_client_property weaviate types self) st)
    as [[E Hne] | [s1 [E1 E]]]; rewrite E.
  - assert (Hr : fst (op (world st)) <> Raise AttributeError).
    { intros Hr. apply Hne. rewrite H1, Hr. reflexivity. }
    destruct (fst (op (world st))) as [h|e] eqn:Hop.
    + split; [exact H1|]. split; [|exact H3]. now apply new_events_app.
    + destruct e; try (split; [exact H1|]; split; [|exact H3]; now apply new_events_app).
      now contradiction Hr.
  - rewrite E1 in H1, H2, H3, H4. cbn [fst snd] in *.
    assert (Hr : fst (op (world st)) = Raise AttributeError).
    { destruct (fst (op (world st))) as [h|e]; [discriminate H1|].
      cbn in H1. congruence. }
    rewrite Hr.
    destruct (client_property_invoke s1 c op (H4 _ Hr) (Hb s1)) as [K1 [K2 [K3 _]]].
    rewrite H3 in K1, K2, K3.
    split; [exact K1|]. split; [|exact K3].
    apply new_events_app. rewrite K2, H2, Hr, <- app_assoc. reflexivity.
Qed.

(** C5: on the first access to [_client], a store whose mode is "local",
    "embedded", "cloud" or "custom" calls connect_to_local,
    connect_to_embedded, connect_to_weaviate_cloud or connect_to_custom
    respectively, with [client_settings.kwargs()] as its arguments, and no
    other function. It calls it once and hands on what the call returns or
    raises; only when that call raises AttributeError is the same function
    called a second time, with the same arguments, and the outcome of the
    second call handed on. *)
Theorem client_connects_by_mode (st : State weaviate) :
  client_slot st = None ->
  let kw := settings_kwargs types (client_settings self) in
  (mode (client_settings self) = "local" ->
     opens_with weaviate types self st (ConnectToLocal kw)
       (connect_to_local weaviate kw)) /\
  (mode (client_settings self) = "embedded" ->
     opens_with weaviate types self st (ConnectToEmbedded kw)
       (connect_to_embedded weaviate kw)) /\
  (mode (client_settings self) = "cloud" ->
     opens_with weaviate types self st (ConnectToWeaviateCloud kw)
       (connect_to_weaviate_cloud weaviate kw)) /\
  (mode (client_settings self) = "custom" ->
     opens_with weaviate types self st (ConnectToCustom kw)
       (connect_to_custom weaviate kw)).
Proof.
  intros Hs kw. split; [|split; [|split]]; intros Hm;
    apply opens_with_invoke; try exact Hs;
    intros s; unfold _client_body; rewrite Hm; reflexivity.
Qed.

Lemma client_body_other_mode (st : State weaviate) :
  configured_mode (mode (client_settings self)) = false ->
  _client_body weaviate types self st = (Ok None, st).
Proof.
  unfold configured_mode, _client_body. intros H.
  repeat (apply orb_false_elim in H; destruct H as [H ?]).
  cbv zeta.
  repeat match goal with
         | E : String.eqb _ _ = false |- _ => rewrite E; clear E
         end.
  reflexivity.
Qed.

(** C10: with any other mode, the first access to [_client] makes no call
    and raises nothing: it returns None, which is cached. What needs the
    client afterwards works on None: close_connection, the access to
    [_index], [add] and [retrieve] all stop with AttributeError, without a
    call to the client library. *)
Theorem client_none_for_other_mode (st : State weaviate) :
  configured_mode (mode (client_settings self)) = false ->
  client_slot st = None ->
  let st' := set_client_slot None st in
  _client weaviate types self st = (Ok None, st') /\
  _client weaviate types self st' = (Ok None, st') /\
  close_connection weaviate types self st = (Raise AttributeError, st') /\
  close_connection weaviate types self st' = (Raise AttributeError, st') /\
  (index_slot st = None ->
     _index weaviate types self st = (Raise AttributeError, st') /\
     (forall input kw,
        add weaviate types self input kw st = (Raise AttributeError, st')) /\
     (forall query kw,
        retrieve weaviate types self query kw st = (Raise AttributeError, st'))).
Proof.
  intros Hm Hs st'.
  assert (H1 : _client weaviate types self st = (Ok None, st')).
  { apply instance_attribute_other; [|discriminate].
    rewrite (client_miss st Hs), (client_body_other_mode st Hm). reflexivity. }
  assert (H2 : _client weaviate types self st' = (Ok None, st')).
  { apply client_hit. reflexivity. }
  split; [exact H1|]. split; [exact H2|].
  split; [unfold close_connection, bind; rewrite H1; reflexivity|].
  split; [unfold close_connection, bind; rewrite H2; reflexivity|].
  intros Hi.
  assert (H3 : _index weaviate types self st = (Raise AttributeError, st')).
  { assert (P : forall s, index_slot s = None ->
                  _client weaviate types self s = (Ok None, st') ->
                  _index_property weaviate types self s = (Raise AttributeError, st')).
    { intros s Hsi Hsc. unfold _index_property, cached_property. rewrite Hsi.
      unfold _index_body. cbv zeta. unfold bind at 1. rewrite Hsc. reflexivity. }
    unfold _index.
    rewrite (instance_attribute_again _ st st' (P st Hi H1)).
    exact (P st' Hi H2). }
  split; [exact H3|]. split.
  - intros input kw. rewrite add_as_documents.
    now apply add_documents_no_index.
  - intros query kw. unfold retrieve, bind. rewrite H3. reflexivity.
Qed.

End ClientClaims.

(** ** The collection *)

Section IndexClaims.

Variable weaviate : WeaviateAPI.
Variable types : TypesModule.
Variable self : WeaviateVectorStore.

(** The parameters the code builds with [model_copy] are [create_params]. *)
Lemma model_copy_create_params :
  (if truthy (index_name self)
   then model_copy_name (vectorstore_params self) (index_name self)
   else vectorstore_params self) = create_params self.
Proof.
  unfold create_params, truthy, model_copy_name.
  destruct (index_name self) as [n|]; [|reflexivity].
  destruct (String.eqb n ""); reflexivity.
Qed.

Lemma index_miss (st : State weaviate) :
  index_slot st = None ->
  _index_property weaviate types self st =
  match _index_body weaviate types self st with
  | (Ok v, st') => (Ok v, set_index_slot v st')
  | (Raise e, st') => (Raise e, st')
  end.
Proof. intros H. unfold _index_property, cached_property. now rewrite H. Qed.

(** The body of [_index] after a connection and an answer of [exists]. *)
Lemma index_body_after_exists (st st1 : State weaviate) (client : handle)
    (found : bool) (w : World weaviate) :
  _client weaviate types self st = (Ok (Some client), st1) ->
  collections_exists weaviate client (index_name self) (world st1) = (Ok found, w) ->
  _index_body weaviate types self st =
  (if found
   then invoke (CollectionsGet client (index_name self))
          (collections_get weaviate client (index_name self))
   else invoke (CollectionsCreate client (params_kwargs types (create_params self)))
          (collections_create weaviate client (params_kwargs types (create_params self))))
    {| world := w; client_slot := client_slot st1; index_slot := index_slot st1;
       trace := trace st1 ++
                [{| ev_call := CollectionsExists client (index_name self);
                    ev_outcome := Returned |}] |}.
Proof.
  intros Hc Hx. unfold _index_body. rewrite model_copy_create_params. cbv zeta.
  unfold bind at 1. rewrite Hc.
  unfold bind at 1. unfold getattr at 1. unfold ret at 1.
  unfold bind at 1. unfold invoke at 1. rewrite Hx. cbn [outcome_of].
  pose proof (client_cached _ _ _ _ _ _ Hc) as Hslot.
  destruct found; unfold bind at 1;
    rewrite (client_hit weaviate types self _ (Some client)) by exact Hslot;
    reflexivity.
Qed.

Lemma index_property_hit (st : State weaviate) (v : handle) :
  index_slot st = Some v -> _index_property weaviate types self st = (Ok v, st).
Proof. intros H. unfold _index_property, cached_property. now rewrite H. Qed.

(** The three ways the body of [_index] stops before get or create. *)
Lemma index_body_client_raises (st st1 : State weaviate) (e : exn) :
  _client weaviate types self st = (Raise e, st1) ->
  _index_body weaviate types self st = (Raise e, st1).
Proof.
  intros Hc. unfold _index_body. cbv zeta. unfold bind at 1. now rewrite Hc.
Qed.

Lemma index_body_no_client (st st1 : State weaviate) :
  _client weaviate types self st = (Ok None, st1) ->
  _index_body weaviate types self st = (Raise AttributeError, st1).
Proof.
  intros Hc. unfold _index_body. cbv zeta. unfold bind at 1. now rewrite Hc.
Qed.

Lemma index_body_exists_raises (st st1 : State weaviate) (c : handle) (e : exn)
    (w : World weaviate) :
  _client weaviate types self st = (Ok (Some c), st1) ->
  collections_exists weaviate c (index_name self) (world st1) = (Raise e, w) ->
  _index_body weaviate types self st =
  (Raise e,
   {| world := w; client_slot := client_slot st1; index_slot := index_slot st1;
      trace := trace st1 ++
               [{| ev_call := CollectionsExists c (index_name self);
                   ev_outcome := Raised e |}] |}).
Proof.
  intros Hc Hx. unfold _index_body. cbv zeta. unfold bind at 1. rewrite Hc.
  unfold bind at 1. unfold getattr at 1, ret at 1.
  unfold bind at 1. unfold invoke at 1. now rewrite Hx.
Qed.

(** One evaluation of the property after a connection and an answer of
    [exists]: the outcome and the calls of the get or create that follows. *)
Lemma index_property_after_exists (st st1 : State weaviate) (client : handle)
    (found : bool) (w : World weaviate) (c : call)
    (op : World weaviate -> result handle * World weaviate) :
  index_slot st = None ->
  _client weaviate types self st = (Ok (Some client), st1) ->
  collections_exists weaviate client (index_name self) (world st1) = (Ok found, w) ->
  (c, op) =
    (if found
     then (CollectionsGet client (index_name self),
           collections_get weaviate client (index_name self))
     else (CollectionsCreate client (params_kwargs types (create_params self)),
           collections_create weaviate client (params_kwargs types (create_params self)))) ->
  fst (_index_property weaviate types self st) = fst (op w) /\
  trace (snd (_index_property weaviate types self st)) =
    trace st1 ++
    [{| ev_call := CollectionsExists client (index_name self); ev_outcome := Returned |};
     {| ev_call := c; ev_outcome := outcome_of (fst (op w)) |}].
Proof.
  intros Hs Hc Hx Hop.
  rewrite (index_miss st Hs), (index_body_after_exists st st1 client found w Hc Hx).
  destruct found; inversion Hop; subst c op; unfold invoke; cbn [world].
  - destruct (collections_get weaviate client (index_name self) w) as [[h|e] w'];
      cbn [fst snd trace set_index_slot]; (split; [reflexivity|]);
      rewrite <- app_assoc; reflexivity.
  - destruct (collections_create weaviate client
                (params_kwargs types (create_params self)) w) as [[h|e] w'];
      cbn [fst snd trace set_index_slot]; (split; [reflexivity|]);
      rewrite <- app_assoc; reflexivity.
Qed.

Lemma client_keeps_no_index (st : State weaviate) :
  index_slot st = None -> index_slot (snd (_client weaviate types self st)) = None.
Proof.
  intros H.
  assert (K : keeps (fun s : State weaviate => index_slot s = None) (fun _ => true)
                (_client weaviate types self)).
  { apply keeps_instance_attribute.
    apply keeps_cached_property; [intros v s H'; exact H' | reflexivity |].
    apply keeps_client_body; [intros s s' E1 E2 H'; cbv beta in *; congruence|].
    reflexivity. }
  exact (proj1 (K st H)).
Qed.

(** One evaluation of the property in which the get or create raises: the
    state it leaves. *)
Lemma index_property_raises (st st1 : State weaviate) (client : handle)
    (found : bool) (w : World weaviate) (e : exn) :
  index_slot st = None ->
  _client weaviate types self st = (Ok (Some client), st1) ->
  collections_exists weaviate client (index_name self) (world st1) = (Ok found, w) ->
  fst (snd (get_or_create weaviate types self client found) w) = Raise e ->
  _index_property weaviate types self st =
  (Raise e,
   {| world := snd (snd (get_or_create weaviate types self client found) w);
      client_slot := Some (Some client);
      index_slot := None;
      trace := trace st1 ++
               [{| ev_call := CollectionsExists client (index_name self);
                   ev_outcome := Returned |};
                {| ev_call := fst (get_or_create weaviate types self client found);
                   ev_outcome := Raised e |}] |}).
Proof.
  intros Hs Hc Hx He.
  pose proof (client_cached _ _ _ _ _ _ Hc) as Hs1.
  pose proof (client_keeps_no_index st Hs) as Hi1. rewrite Hc in Hi1. cbn [snd] in Hi1.
  rewrite (index_miss st Hs), (index_body_after_exists st st1 client found w Hc Hx).
  rewrite Hs1, Hi1.
  destruct found; unfold get_or_create in *; cbn [fst snd] in *;
    unfold invoke; cbn [world trace client_slot index_slot].
  - destruct (collections_get weaviate client (index_name self) w) as [[h|e'] w'];
      cbn [fst snd] in *; [discriminate He|].
    inversion He. subst e'. rewrite <- app_assoc. reflexivity.
  - destruct (collections_create weaviate client
                (params_kwargs types (create_params self)) w) as [[h|e'] w'];
      cbn [fst snd] in *; [discriminate He|].
    inversion He. subst e'. rewrite <- app_assoc. reflexivity.
Qed.

(** C2: on its first access, with the client connected, [_index] asks
    whether a collection named [index_name] exists. If it does, the result
    is that of [collections.get(index_name)] and nothing is created;
    otherwise the result is that of [collections.create] called with
    [kwargs()] of the parameters, whose name is [index_name] whenever
    [index_name] is set (a non-empty string) and which are
    [vectorstore_params] unchanged otherwise. This is what happens whenever
    the get or create call returns, or raises anything but AttributeError.
    When it raises AttributeError the property is evaluated once more: the
    client, which is cached, is asked again whether the collection exists,
    and the outcome of the get or create that follows this second answer is
    the outcome of the access. *)
Theorem index_creates_or_fetches (st st1 : State weaviate) (client : handle)
    (found : bool) (w : World weaviate) :
  index_slot st = None ->
  _client weaviate types self st = (Ok (Some client), st1) ->
  collections_exists weaviate client (index_name self) (world st1) = (Ok found, w) ->
  let asked := {| ev_call := CollectionsExists client (index_name self);
                  ev_outcome := Returned |} in
  let kw := params_kwargs types (create_params self) in
  (found = true ->
     fst (collections_get weaviate client (index_name self) w) <> Raise AttributeError ->
     fst (_index weaviate types self st) =
       fst (collections_get weaviate client (index_name self) w) /\
     new_events st1 (snd (_index weaviate types self st)) =
       [asked;
        {| ev_call := CollectionsGet client (index_name self);
           ev_outcome := outcome_of
             (fst (collections_get weaviate client (index_name self) w)) |}]) /\
  (found = false ->
     fst (collections_create weaviate client kw w) <> Raise AttributeError ->
     fst (_index weaviate types self st) =
       fst (collections_create weaviate client kw w) /\
     new_events st1 (snd (_index weaviate types self st)) =
       [asked;
        {| ev_call := CollectionsCreate client kw;
           ev_outcome := outcome_of (fst (collections_create weaviate client kw w)) |}]) /\
  (let '(c, op) := get_or_create weaviate types self client found in
   fst (op w) = Raise AttributeError ->
   let failed := {| ev_call := c; ev_outcome := Raised AttributeError |} in
   match collections_exists weaviate client (index_name self) (snd (op w)) with
   | (Ok again, w') =>
       let '(c', op') := get_or_create weaviate types self client again in
       fst (_index weaviate types self st) = fst (op' w') /\
       new_events st1 (snd (_index weaviate types self st)) =
         [asked; failed; asked;
          {| ev_call := c'; ev_outcome := outcome_of (fst (op' w')) |}]
   | (Raise e, _) =>
       fst (_index weaviate types self st) = Raise e /\
       new_events st1 (snd (_index weaviate types self st)) =
         [asked; failed;
          {| ev_call := CollectionsExists client (index_name self);
             ev_outcome := Raised e |}]
   end) /\
  (is_set (index_name self) ->
     name (create_params self) = index_name self /\
     params_fields (create_params self) = params_fields (vectorstore_params self)) /\
  (~ is_set (index_name self) ->
     create_params self = vectorstore_params self).
Proof.
  intros Hs Hc Hx asked kw.
  assert (K : forall c op,
             (c, op) =
             (if found
              then (CollectionsGet client (index_name self),
                    collections_get weaviate client (index_name self))
              else (CollectionsCreate client kw, collections_create weaviate client kw)) ->
             fst (op w) <> Raise AttributeError ->
             fst (_index weaviate types self st) = fst (op w) /\
             new_events st1 (snd (_index weaviate types self st)) =
               [asked; {| ev_call := c; ev_outcome := outcome_of (fst (op w)) |}]).
  { intros c op Hop Hne.
    destruct (index_property_after_exists st st1 client found w c op Hs Hc Hx Hop)
      as [H1 H2].
    unfold _index.
    destruct (instance_attribute_cases (_index_property weaviate types self) st)
      as [[E _] | [s [E1 _]]].
    - rewrite E. split; [exact H1|]. now apply new_events_app.
    - rewrite E1 in H1. cbn [fst] in H1. now contradiction Hne. }
  split; [|split; [|split; [|split]]].
  - intros -> Hne. now apply K.
  - intros -> Hne. now apply K.
  - destruct (get_or_create weaviate types self client found) as [c op] eqn:G.
    intros He failed.
    pose proof (index_property_raises st st1 client found w AttributeError Hs Hc Hx) as P.
    rewrite G in P. cbn [fst snd] in P. specialize (P He).
    unfold _index. rewrite (instance_attribute_again _ _ _ P).
    match type of P with
    | _ = (_, ?x) => set (s := x) in *
    end.
    assert (Hcs : _client weaviate types self s = (Ok (Some client), s)).
    { apply client_hit. reflexivity. }
    change (snd (op w)) with (world s).
    destruct (collections_exists weaviate client (index_name self) (world s))
      as [[again|e] w'] eqn:Hx'.
    + destruct (get_or_create weaviate types self client again) as [c' op'] eqn:G'.
      destruct (index_property_after_exists s s client again w' c' op'
                  eq_refl Hcs Hx') as [H1 H2].
      { rewrite <- G'. unfold get_or_create. now destruct again. }
      split; [exact H1|]. apply new_events_app. rewrite H2.
      subst s. cbn [trace]. rewrite <- app_assoc. reflexivity.
    + rewrite (index_miss s eq_refl), (index_body_exists_raises s s client e w' Hcs Hx').
      cbn [fst snd]. split; [reflexivity|]. apply new_events_app.
      subst s. cbn [trace]. rewrite <- app_assoc. reflexivity.
  - intros [n [E Hn]]. unfold create_params. rewrite E.
    apply String.eqb_neq in Hn. rewrite Hn. split; reflexivity.
  - intros Hn. unfold create_params. destruct (index_name self) as [n|]; [|reflexivity].
    destruct (String.eqb_spec n "") as [_|Hne]; [reflexivity|].
    exfalso. apply Hn. exists n. split; [reflexivity | exact Hne].
Qed.

End IndexClaims.
(** ** Caching *)

Section CachingClaims.

Variable weaviate : WeaviateAPI.
Variable types : TypesModule.
Variable self : WeaviateVectorStore.

(** With the client cached, nothing the instance does connects again. *)
Lemma no_connect_once_cached (c : option handle) (ops : list operation)
    (st : State weaviate) :
  client_slot st = Some c ->
  client_slot (run_ops weaviate types self ops st) = Some c /\
  connect_calls (trace (run_ops weaviate types self ops st)) = connect_calls (trace st).
Proof.
  intros Hs.
  assert (Hc : keeps (fun s : State weaviate => client_slot s = Some c)
                 (fun x => negb (is_connect x)) (_client weaviate types self)).
  { apply keeps_instance_attribute.
    apply keeps_cached_hit. intros s H. rewrite H. discriminate. }
  assert (Hi : keeps (fun s : State weaviate => client_slot s = Some c)
                 (fun x => negb (is_connect x)) (_index weaviate types self)).
  { apply keeps_instance_attribute.
    apply keeps_cached_property; [intros v s H; exact H | reflexivity |].
    apply keeps_index_body; [intros s s' E1 E2 H; cbv beta in *; congruence | exact Hc |].
    intros x; destruct x; simpl; intros H; try reflexivity; discriminate H. }
  destruct (keeps_run_ops weaviate (fun s : State weaviate => client_slot s = Some c)
              (fun x => negb (is_connect x))
              ltac:(intros s s' E1 E2 H; cbv beta in *; congruence) types self Hc Hi
              ltac:(intros x; destruct x; simpl; intros H; try reflexivity; discriminate H)
              ops st Hs) as [H1 [t [Et Ft]]].
  split; [exact H1|].
  rewrite Et. unfold connect_calls. rewrite calls_app, filter_app.
  rewrite (filter_none _ _ Ft). apply app_nil_r.
Qed.

(** With the collection cached, nothing the instance does asks for it again. *)
Lemma no_collections_once_cached (coll : handle) (ops : list operation)
    (st : State weaviate) :
  index_slot st = Some coll ->
  index_slot (run_ops weaviate types self ops st) = Some coll /\
  collections_calls (trace (run_ops weaviate types self ops st)) =
    collections_calls (trace st).
Proof.
  intros Hs.
  assert (Hc : keeps (fun s : State weaviate => index_slot s = Some coll)
                 (fun x => negb (is_collections x)) (_client weaviate types self)).
  { apply keeps_instance_attribute.
    apply keeps_cached_property; [intros v s H; exact H | reflexivity |].
    apply keeps_client_body; [intros s s' E1 E2 H; cbv beta in *; congruence |].
    intros x; destruct x; simpl; intros H; try reflexivity; discriminate H. }
  assert (Hi : keeps (fun s : State weaviate => index_slot s = Some coll)
                 (fun x => negb (is_collections x)) (_index weaviate types self)).
  { apply keeps_instance_attribute.
    apply keeps_cached_hit. intros s H. rewrite H. discriminate. }
  destruct (keeps_run_ops weaviate (fun s : State weaviate => index_slot s = Some coll)
              (fun x => negb (is_collections x))
              ltac:(intros s s' E1 E2 H; cbv beta in *; congruence) types self Hc Hi
              ltac:(intros x; destruct x; simpl; intros H; try reflexivity; discriminate H)
              ops st Hs) as [H1 [t [Et Ft]]].
  split; [exact H1|].
  rewrite Et. unfold collections_calls. rewrite calls_app, filter_app.
  rewrite (filter_none _ _ Ft). apply app_nil_r.
Qed.

(** An access that raises leaves the slot of its property empty. *)
Lemma client_raise_caches_nothing (st st1 : State weaviate) (e : exn) :
  _client weaviate types self st = (Raise e, st1) -> client_slot st1 = None.
Proof.
  assert (P : forall s s1 e', _client_property weaviate types self s = (Raise e', s1) ->
                               client_slot s1 = None).
  { intros s s1 e'. unfold _client_property, cached_property.
    destruct (client_slot s) as [v|] eqn:Hs; [discriminate|].
    destruct (keeps_client_body weaviate (fun x => client_slot x = None) (fun _ => true)
                ltac:(intros x x' E1 E2 H; cbv beta in *; congruence) types self
                ltac:(reflexivity) s Hs) as [I1 _].
    destruct (_client_body weaviate types self s) as [[v|e''] s']; [discriminate|].
    intros H. inversion H. subst. exact I1. }
  intros H. unfold _client in H.
  destruct (instance_attribute_cases (_client_property weaviate types self) st)
    as [[E _] | [s [_ E]]]; rewrite E in H; exact (P _ _ _ H).
Qed.

Lemma index_raise_caches_nothing (st st1 : State weaviate) (e : exn) :
  _index weaviate types self st = (Raise e, st1) -> index_slot st1 = None.
Proof.
  assert (Hc : keeps (fun s : State weaviate => index_slot s = None)
                 (fun _ => true) (_client weaviate types self)).
  { apply keeps_instance_attribute.
    apply keeps_cached_property; [intros v s H; exact H | reflexivity |].
    apply keeps_client_body; [intros s s' E1 E2 H; cbv beta in *; congruence |].
    reflexivity. }
  assert (P : forall s s1 e', _index_property weaviate types self s = (Raise e', s1) ->
                               index_slot s1 = None).
  { intros s s1 e'. unfold _index_property, cached_property.
    destruct (index_slot s) as [v|] eqn:Hs; [discriminate|].
    destruct (keeps_index_body weaviate (fun x => index_slot x = None) (fun _ => true)
                ltac:(intros x x' E1 E2 H; cbv beta in *; congruence) types self Hc
                ltac:(reflexivity) s Hs) as [I1 _].
    destruct (_index_body weaviate types self s) as [[v|e''] s']; [discriminate|].
    intros H. inversion H. subst. exact I1. }
  intros H. unfold _index in H.
  destruct (instance_attribute_cases (_index_property weaviate types self) st)
    as [[E _] | [s [_ E]]]; rewrite E in H; exact (P _ _ _ H).
Qed.

(** After an access to [_client] that raised, the next access calls the
    same connect function again. *)
Lemma client_raise_connects_again (st st1 : State weaviate) (e : exn) :
  _client weaviate types self st = (Raise e, st1) ->
  exists c t0 r t,
    is_connect c = true /\
    new_events st st1 = t0 ++ [{| ev_call := c; ev_outcome := Raised e |}] /\
    new_events st1 (snd (_client weaviate types self st1)) =
      {| ev_call := c; ev_outcome := r |} :: t.
Proof.
  intros H.
  destruct (client_body_shape weaviate types self) as [B | [c [op [Hc B]]]].
  - exfalso.
    assert (P : forall s s' e', _client_property weaviate types self s <> (Raise e', s')).
    { intros s s' e' E. destruct (client_slot s) as [v|] eqn:Hs.
      - rewrite (client_property_hit weaviate types self s v Hs) in E. discriminate E.
      - rewrite (client_miss weaviate types self s Hs), B in E. discriminate E. }
    unfold _client in H.
    destruct (instance_attribute_cases (_client_property weaviate types self) st)
      as [[E _] | [s [_ E]]]; rewrite E in H; exact (P _ _ _ H).
  - assert (P : forall s s' e', _client_property weaviate types self s = (Raise e', s') ->
                 trace s' = trace s ++ [{| ev_call := c; ev_outcome := Raised e' |}] /\
                 client_slot s' = None).
    { intros s s' e' E. destruct (client_slot s) as [v|] eqn:Hs.
      - rewrite (client_property_hit weaviate types self s v Hs) in E. discriminate E.
      - destruct (client_property_invoke weaviate types self s c op Hs (B s))
          as [H1 [H2 [_ H4]]].
        rewrite E in H1, H2, H4. cbn [fst snd] in *.
        destruct (fst (op (world s))) as [h|e'']; [discriminate H1|].
        cbn in H1. inversion H1. subst e''. split; [exact H2|]. exact (H4 e' eq_refl). }
    assert (Q : forall s, client_slot s = None ->
                 exists r t, trace (snd (_client weaviate types self s)) =
                             trace s ++ {| ev_call := c; ev_outcome := r |} :: t).
    { intros s Hs.
      destruct (client_property_invoke weaviate types self s c op Hs (B s))
        as [_ [H2 _]].
      unfold _client.
      destruct (instance_attribute_cases (_client_property weaviate types self) s)
        as [[E _] | [s2 [E1 E]]]; rewrite E.
      - eexists _, []. exact H2.
      - destruct (P _ _ _ E1) as [T1 S1].
        destruct (client_property_invoke weaviate types self s2 c op S1 (B s2))
          as [_ [K2 _]].
        eexists _, [_]. rewrite K2, T1, <- app_assoc. reflexivity. }
    assert (L : exists t0, trace st1 =
                           trace st ++ t0 ++ [{| ev_call := c; ev_outcome := Raised e |}]
                           /\ client_slot st1 = None).
    { unfold _client in H.
      destruct (instance_attribute_cases (_client_property weaviate types self) st)
        as [[E _] | [s [E1 E]]]; rewrite E in H.
      - destruct (P _ _ _ H) as [T S]. exists []. split; [exact T | exact S].
      - destruct (P _ _ _ E1) as [T1 _]. destruct (P _ _ _ H) as [T S].
        eexists [_]. split; [|exact S]. rewrite T, T1, <- app_assoc. reflexivity. }
    destruct L as [t0 [T S]]. destruct (Q st1 S) as [r [t E]].
    exists c, t0, r, t. split; [exact Hc|]. split; now apply new_events_app.
Qed.

(** After an access to [_index] that raised with the client connected, the
    next access asks the client again whether the collection exists. *)
Lemma index_raise_asks_again (st st1 : State weaviate) (e : exn) (client : handle) :
  _index weaviate types self st = (Raise e, st1) ->
  client_slot st1 = Some (Some client) ->
  exists r t,
    new_events st1 (snd (_index weaviate types self st1)) =
      {| ev_call := CollectionsExists client (index_name self); ev_outcome := r |} :: t.
Proof.
  intros H Hc1.
  pose proof (index_raise_caches_nothing st st1 e H) as Hi1.
  assert (Hcs : _client weaviate types self st1 = (Ok (Some client), st1)).
  { now apply client_hit. }
  assert (Q : exists r t, trace (snd (_index_property weaviate types self st1)) =
                          trace st1 ++
                          {| ev_call := CollectionsExists client (index_name self);
                             ev_outcome := r |} :: t).
  { destruct (collections_exists weaviate client (index_name self) (world st1))
      as [[found|e'] w] eqn:Hx.
    - destruct found;
        destruct (index_property_after_exists weaviate types self st1 st1 client _ w
                    _ _ Hi1 Hcs Hx eq_refl) as [_ H2];
        eexists _, [_]; exact H2.
    - rewrite (index_miss weaviate types self st1 Hi1),
        (index_body_exists_raises weaviate types self st1 st1 client e' w Hcs Hx).
      eexists _, []. reflexivity. }
  assert (K : keeps (fun _ : State weaviate => True) (fun _ => true)
                (_index_property weaviate types self)).
  { apply keeps_cached_property; auto. apply keeps_index_body; auto.
    apply keeps_instance_attribute.
    apply keeps_cached_property; auto. apply keeps_client_body; auto. }
  destruct Q as [r [t Q]]. unfold _index.
  destruct (instance_attribute_cases (_index_property weaviate types self) st1)
    as [[E _] | [s [E1 E]]]; rewrite E.
  - exists r, t. now apply new_events_app.
  - rewrite E1 in Q. cbn [snd] in Q.
    destruct (K s I) as [_ [t' [E' _]]].
    exists r, (t ++ t'). apply new_events_app. rewrite E', Q, <- app_assoc. reflexivity.
Qed.

(** C6, as amended: a value that an access to [_client] or [_index]
    returned is cached. After whatever the instance does next, an access
    returns the same handle and changes nothing, no connect call (for
    [_client]) and no collections call (for [_index]) is made after that
    first return, and accessing the property twice is accessing it once.
    An access that raises caches nothing: the slot of the property is
    empty afterwards, the next access to [_client] calls the connect
    function that raised again, and the next access to [_index], with the
    client connected, asks again whether the collection exists. *)
Theorem properties_cached_after_return (st st1 : State weaviate)
    (ops : list operation) :
  (forall c, _client weaviate types self st = (Ok c, st1) ->
     let st2 := run_ops weaviate types self ops st1 in
     _client weaviate types self st2 = (Ok c, st2) /\
     connect_calls (trace st2) = connect_calls (trace st1) /\
     bind (_client weaviate types self) (fun _ => _client weaviate types self) st =
       _client weaviate types self st) /\
  (forall coll, _index weaviate types self st = (Ok coll, st1) ->
     let st2 := run_ops weaviate types self ops st1 in
     _index weaviate types self st2 = (Ok coll, st2) /\
     collections_calls (trace st2) = collections_calls (trace st1) /\
     bind (_index weaviate types self) (fun _ => _index weaviate types self) st =
       _index weaviate types self st) /\
  (forall e, _client weaviate types self st = (Raise e, st1) ->
     client_slot st1 = None /\
     exists c t0 r t,
       is_connect c = true /\
       new_events st st1 = t0 ++ [{| ev_call := c; ev_outcome := Raised e |}] /\
       new_events st1 (snd (_client weaviate types self st1)) =
         {| ev_call := c; ev_outcome := r |} :: t) /\
  (forall e, _index weaviate types self st = (Raise e, st1) ->
     index_slot st1 = None /\
     forall client, client_slot st1 = Some (Some client) ->
       exists r t,
         new_events st1 (snd (_index weaviate types self st1)) =
           {| ev_call := CollectionsExists client (index_name self);
              ev_outcome := r |} :: t).
Proof.
  split; [|split; [|split]].
  - intros c H st2.
    pose proof (client_cached _ _ _ _ _ _ H) as Hs.
    destruct (no_connect_once_cached c ops st1 Hs) as [H2 H3].
    split; [now apply client_hit|]. split; [exact H3|].
    unfold bind. rewrite H. now apply client_hit.
  - intros coll H st2.
    pose proof (index_cached _ _ _ _ _ _ H) as Hs.
    destruct (no_collections_once_cached coll ops st1 Hs) as [H2 H3].
    split; [now apply index_hit|]. split; [exact H3|].
    unfold bind. rewrite H. now apply index_hit.
  - intros e H. split; [exact (client_raise_caches_nothing st st1 e H)|].
    exact (client_raise_connects_again st st1 e H).
  - intros e H. split; [exact (index_raise_caches_nothing st st1 e H)|].
    intros client Hc. exact (index_raise_asks_again st st1 e client H Hc).
Qed.

End CachingClaims.

(** ** Exceptions *)

Section ExceptionClaims.

Variable weaviate : WeaviateAPI.
Variable types : TypesModule.
Variable self : WeaviateVectorStore.

Lemma forwards_client : forwards (_client weaviate types self).
Proof.
  apply forwards_instance_attribute.
  - apply keeps_cached_property; auto.
    apply keeps_client_body; auto.
    intros c Hc. unfold is_setup. now rewrite Hc.
  - unfold _client_property, _client_body. forwarding.
Qed.




Lemma forwards_close_connection : forwards (close_connection weaviate types self).
Proof.
  pose proof forwards_client as Hc.
  unfold close_connection. forwarding.
Qed.


End ExceptionClaims.

(** * Concrete runs on the in-memory server *)

(** C1 as stated fails on the empty list: the single-insert branch is taken
    and no insert is performed. *)
Lemma add_empty_list_inserts_nothing :
  Nat.ltb (List.length (documents_of my_store (TDocs []))) 2 = true /\
  fst (add server_api plain_types my_store (TDocs []) []
         (fresh server_api server_up)) = Raise IndexError /\
  insert_calls (trace (snd (add server_api plain_types my_store (TDocs []) []
                              (fresh server_api server_up)))) = [] /\
  ~ (exists c, insert_calls (trace (snd (add server_api plain_types my_store
                                           (TDocs []) [] (fresh server_api server_up))))
               = [c]).
Proof.
  repeat split. intros [c H]. discriminate H.
Qed.

Lemma add_insert_policy_witness :
  _index server_api plain_types my_store (fresh server_api server_up) =
    (Ok 100, indexed server_up) /\
  insert_calls (new_events (fresh server_api server_up)
                  (snd (add server_api plain_types my_store (TDocs [doc_a]) []
                          (fresh server_api server_up)))) =
    [DataInsert 100 [("text", PyStr "alpha")] "id-a" []] /\
  insert_calls (new_events (fresh server_api server_up)
                  (snd (add server_api plain_types my_store (TDocs [doc_a; doc_b]) []
                          (fresh server_api server_up)))) =
    [DataInsertMany 100 [data_object doc_a; data_object doc_b]].
Proof.
  assert (Hi : _index server_api plain_types my_store (fresh server_api server_up) =
               (Ok 100, indexed server_up)) by reflexivity.
  split; [exact Hi|]. split.
  - exact (proj2 (proj1 (add_insert_policy server_api plain_types my_store
                           (TDocs [doc_a]) [] _ _ _ Hi)
                    doc_a eq_refl eq_refl eq_refl)).
  - exact (proj2 (proj2 (add_insert_policy server_api plain_types my_store
                           (TDocs [doc_a; doc_b]) [] _ _ _ Hi)
                    (le_n 2))).
Defined.

Lemma add_chunks_or_as_is_witness :
  submitted (new_events (fresh server_api server_up)
               (snd (add server_api plain_types my_store (TStr "hello") []
                       (fresh server_api server_up)))) =
    [{| properties := [("text", PyStr "hello")]; uuid := "chunk-0" |}] /\
  submitted (new_events (fresh server_api server_up)
               (snd (add server_api plain_types my_store (TDocs [doc_c; doc_a; doc_b]) []
                       (fresh server_api server_up)))) =
    [data_object doc_c; data_object doc_a; data_object doc_b].
Proof.
  pose proof (add_chunks_or_as_is server_api plain_types my_store []
                (fresh server_api server_up) (indexed server_up) 100
                eq_refl eq_refl eq_refl) as [Hs Hl].
  split.
  - exact (proj2 (Hs "hello")).
  - exact (Hl [doc_c; doc_a; doc_b]).
Defined.

Lemma add_needs_a_document_witness :
  add server_api plain_types my_store (TDocs []) [] (fresh server_api server_up) =
    (Raise IndexError, indexed server_up) /\
  add server_api plain_types my_store (TStr "") [] (fresh server_api server_up) =
    (Raise IndexError, indexed server_up) /\
  fst (add server_api plain_types my_store (TDocs [doc_a]) []
         (fresh server_api server_up)) = Ok (PyStr "id-a").
Proof.
  split; [|split].
  - destruct (proj1 (add_needs_a_document server_api plain_types my_store (TDocs []) []
                       (fresh server_api server_up)) eq_refl) as [_ [_ [_ H]]].
    exact (H 100 (indexed server_up) eq_refl).
  - destruct (proj1 (add_needs_a_document server_api plain_types my_store (TStr "") []
                       (fresh server_api server_up)) eq_refl) as [_ [_ [_ H]]].
    exact (H 100 (indexed server_up) eq_refl).
  - rewrite (proj2 (add_needs_a_document server_api plain_types my_store (TDocs [doc_a]) []
                      (fresh server_api server_up))
               doc_a eq_refl 100 (indexed server_up) eq_refl eq_refl eq_refl).
    reflexivity.
Defined.

(** C4 as stated fails on an empty collection: the query is issued, its
    result has no first object, and [retrieve] returns nothing. *)
Lemma retrieve_empty_result_returns_nothing :
  near_text_calls (trace (snd (retrieve server_api plain_types my_store "hello" []
                                 (fresh server_api server_with_index)))) =
    [QueryNearText 100 "hello" []] /\
  fst (query_near_text server_api 100 "hello" [] server_with_index) =
    Ok {| objects := [] |} /\
  fst (retrieve server_api plain_types my_store "hello" []
         (fresh server_api server_with_index)) = Raise IndexError /\
  ~ (exists v, fst (retrieve server_api plain_types my_store "hello" []
                      (fresh server_api server_with_index)) = Ok v).
Proof.
  repeat split. intros [v H]. discriminate H.
Qed.

Lemma retrieve_first_object_witness :
  near_text_calls (new_events (fresh server_api server_with_data)
                     (snd (retrieve server_api plain_types my_store "hello" []
                             (fresh server_api server_with_data)))) =
    [QueryNearText 100 "hello" []] /\
  fst (retrieve server_api plain_types my_store "hello" []
         (fresh server_api server_with_data)) =
    Ok {| obj_uuid := "id-a"; obj_properties := [("text", PyStr "alpha")] |} /\
  fst (retrieve server_api plain_types my_store "hello" []
         (fresh server_api server_with_untexted)) = Raise (KeyError "text").
Proof.
  pose proof (retrieve_first_object server_api plain_types my_store "hello" []
                (fresh server_api server_with_data) (indexed server_with_data) 100
                eq_refl eq_refl) as [Hq Hr].
  split; [exact Hq|]. split.
  - exact (Hr _ server_with_data _ _ eq_refl eq_refl).
  - exact (proj2 (retrieve_first_object server_api plain_types my_store "hello" []
                    (fresh server_api server_with_untexted)
                    (indexed server_with_untexted) 100 eq_refl eq_refl)
             _ server_with_untexted _ _ eq_refl eq_refl).
Defined.

Lemma retrieve_needs_an_object_witness :
  fst (retrieve server_api plain_types my_store "hello" []
         (fresh server_api server_with_index)) = Raise IndexError.
Proof.
  exact (proj1 (retrieve_needs_an_object server_api plain_types my_store "hello" []
                  (fresh server_api server_with_index))
           100 (indexed server_with_index) {| objects := [] |} server_with_index
           eq_refl eq_refl eq_refl eq_refl).
Defined.

Lemma client_connects_by_mode_witness :
  (fst (_client server_api plain_types my_store (fresh server_api server_up)) =
     Ok (Some 1) /\
   new_events (fresh server_api server_up)
     (snd (_client server_api plain_types my_store (fresh server_api server_up))) =
     [{| ev_call := ConnectToLocal []; ev_outcome := Returned |}]) /\
  (fst (_client flaky_api plain_types (store_with_mode "cloud")
          (fresh flaky_api (1, server_up))) = Ok (Some 1) /\
   new_events (fresh flaky_api (1, server_up))
     (snd (_client flaky_api plain_types (store_with_mode "cloud")
             (fresh flaky_api (1, server_up)))) =
     [{| ev_call := ConnectToWeaviateCloud []; ev_outcome := Raised AttributeError |};
      {| ev_call := ConnectToWeaviateCloud []; ev_outcome := Returned |}]).
Proof.
  split.
  - pose proof (proj1 (client_connects_by_mode server_api plain_types my_store
                         (fresh server_api server_up) eq_refl) eq_refl) as H.
    cbv in H. destruct H as [H1 [H2 _]]. split; [exact H1 | exact H2].
  - pose proof (proj1 (proj2 (proj2 (client_connects_by_mode flaky_api plain_types
                                        (store_with_mode "cloud")
                                        (fresh flaky_api (1, server_up)) eq_refl)))
                  eq_refl) as H.
    cbv in H. destruct H as [H1 [H2 _]]. split; [exact H1 | exact H2].
Defined.

Lemma client_none_for_other_mode_witness :
  _client server_api plain_types (store_with_mode "remote") (fresh server_api server_up) =
    (Ok None, set_client_slot None (fresh server_api server_up)) /\
  close_connection server_api plain_types (store_with_mode "remote")
    (fresh server_api server_up) =
    (Raise AttributeError, set_client_slot None (fresh server_api server_up)).
Proof.
  pose proof (client_none_for_other_mode server_api plain_types (store_with_mode "remote")
                (fresh server_api server_up) eq_refl eq_refl) as [H1 [_ [H3 _]]].
  split; [exact H1 | exact H3].
Defined.

Lemma index_creates_or_fetches_witness :
  (fst (_index server_api plain_types my_store (fresh server_api server_with_index)) =
     Ok 100 /\
   new_events (connected server_with_index)
     (snd (_index server_api plain_types my_store (fresh server_api server_with_index))) =
     [{| ev_call := CollectionsExists 1 (Some "my-store-0001"); ev_outcome := Returned |};
      {| ev_call := CollectionsGet 1 (Some "my-store-0001"); ev_outcome := Returned |}]) /\
  (fst (_index server_api plain_types my_store (fresh server_api server_up)) = Ok 100 /\
   new_events (connected server_up)
     (snd (_index server_api plain_types my_store (fresh server_api server_up))) =
     [{| ev_call := CollectionsExists 1 (Some "my-store-0001"); ev_outcome := Returned |};
      {| ev_call := CollectionsCreate 1 [("name", PyStr "my-store-0001")];
         ev_outcome := Returned |}]) /\
  (fst (_index flaky_get_api plain_types my_store
          (fresh flaky_get_api (1, server_with_index))) = Ok 100 /\
   new_events
     (snd (_client flaky_get_api plain_types my_store
             (fresh flaky_get_api (1, server_with_index))))
     (snd (_index flaky_get_api plain_types my_store
             (fresh flaky_get_api (1, server_with_index)))) =
     [{| ev_call := CollectionsExists 1 (Some "my-store-0001"); ev_outcome := Returned |};
      {| ev_call := CollectionsGet 1 (Some "my-store-0001");
         ev_outcome := Raised AttributeError |};
      {| ev_call := CollectionsExists 1 (Some "my-store-0001"); ev_outcome := Returned |};
      {| ev_call := CollectionsGet 1 (Some "my-store-0001"); ev_outcome := Returned |}]).
Proof.
  split; [|split].
  - exact (proj1 (index_creates_or_fetches server_api plain_types my_store
                    (fresh server_api server_with_index) (connected server_with_index)
                    1 true server_with_index eq_refl eq_refl eq_refl) eq_refl
           ltac:(vm_compute; discriminate)).
  - exact (proj1 (proj2 (index_creates_or_fetches server_api plain_types my_store
                           (fresh server_api server_up) (connected server_up)
                           1 false server_up eq_refl eq_refl eq_refl)) eq_refl
           ltac:(vm_compute; discriminate)).
  - pose proof (proj1 (proj2 (proj2
                  (index_creates_or_fetches flaky_get_api plain_types my_store
                     (fresh flaky_get_api (1, server_with_index))
                     (snd (_client flaky_get_api plain_types my_store
                             (fresh flaky_get_api (1, server_with_index))))
                     1 true (1, server_with_index) eq_refl eq_refl eq_refl)))) as H.
    cbv in H. exact (H eq_refl).
Defined.

(** C6 as stated fails when the connection cannot be opened: nothing is
    cached, and the second access connects again. *)
Lemma connect_repeated_after_failure :
  connect_calls (trace (run_ops server_api plain_types my_store [OpClient; OpClient]
                          (fresh server_api server_down))) =
    [ConnectToLocal []; ConnectToLocal []] /\
  ~ (List.length
       (connect_calls (trace (run_ops server_api plain_types my_store [OpClient; OpClient]
                                (fresh server_api server_down)))) <= 1).
Proof.
  split; [reflexivity|]. simpl. lia.
Qed.

Lemma properties_cached_after_return_witness :
  (_client server_api plain_types my_store
     (run_ops server_api plain_types my_store usual_history (connected server_up)) =
     (Ok (Some 1),
      run_ops server_api plain_types my_store usual_history (connected server_up)) /\
   connect_calls
     (trace (run_ops server_api plain_types my_store usual_history (connected server_up))) =
     connect_calls (trace (connected server_up))) /\
  (_index server_api plain_types my_store
     (run_ops server_api plain_types my_store usual_history (indexed server_up)) =
     (Ok 100,
      run_ops server_api plain_types my_store usual_history (indexed server_up)) /\
   collections_calls
     (trace (run_ops server_api plain_types my_store usual_history (indexed server_up))) =
     collections_calls (trace (indexed server_up))) /\
  (client_slot (snd (_client server_api plain_types my_store
                       (fresh server_api server_down))) = None /\
   exists c t0 r t,
     is_connect c = true /\
     new_events (fresh server_api server_down)
       (snd (_client server_api plain_types my_store (fresh server_api server_down))) =
       t0 ++ [{| ev_call := c; ev_outcome := Raised (ClientError "connection refused") |}] /\
     new_events
       (snd (_client server_api plain_types my_store (fresh server_api server_down)))
       (snd (_client server_api plain_types my_store
               (snd (_client server_api plain_types my_store
                       (fresh server_api server_down))))) =
       {| ev_call := c; ev_outcome := r |} :: t) /\
  (index_slot (snd (_index server_api plain_types unnamed_store
                      (fresh server_api server_up))) = None /\
   exists r t,
     new_events
       (snd (_index server_api plain_types unnamed_store (fresh server_api server_up)))
       (snd (_index server_api plain_types unnamed_store
               (snd (_index server_api plain_types unnamed_store
                       (fresh server_api server_up))))) =
       {| ev_call := CollectionsExists 1 None; ev_outcome := r |} :: t).
Proof.
  split; [|split; [|split]].
  - destruct (proj1 (properties_cached_after_return server_api plain_types my_store
                       (fresh server_api server_up) (connected server_up) usual_history)
                (Some 1) eq_refl) as [H1 [H2 _]].
    split; [exact H1 | exact H2].
  - destruct (proj1 (proj2 (properties_cached_after_return server_api plain_types
                              my_store (fresh server_api server_up) (indexed server_up)
                              usual_history))
                100 eq_refl) as [H1 [H2 _]].
    split; [exact H1 | exact H2].
  - exact (proj1 (proj2 (proj2 (properties_cached_after_return server_api plain_types
                                   my_store (fresh server_api server_down)
                                   (snd (_client server_api plain_types my_store
                                           (fresh server_api server_down))) [])))
             (ClientError "connection refused") eq_refl).
  - destruct (proj2 (proj2 (proj2 (properties_cached_after_return server_api plain_types
                                      unnamed_store (fresh server_api server_up)
                                      (snd (_index server_api plain_types unnamed_store
                                              (fresh server_api server_up))) [])))
                (ClientError "missing name") eq_refl) as [H1 H2].
    split; [exact H1 | exact (H2 1 eq_refl)].
Defined.


(** A refused connection, seen by the caller of [add] as it was raised. *)
Example add_forwards_connection_error :
  add server_api plain_types my_store (TDocs [doc_a; doc_b]) []
    (fresh server_api server_down) =
  (Raise (ClientError "connection refused"),
   Build_State server_api server_down None None
     [{| ev_call := ConnectToLocal [];
         ev_outcome := Raised (ClientError "connection refused") |}]).
Proof. reflexivity. Qed.

(** * Further properties of the adapter *)

(** ** Invariants of an instance: rules *)

Section Preserving.

Variable weaviate : WeaviateAPI.
Variable I : State weaviate -> Prop.
Variable ok : call -> bool.

(** Logging a call that [ok] accepts keeps [I], whatever the world becomes. *)
Hypothesis I_event : forall (st : State weaviate) (c : call) (r : outcome)
    (w : World weaviate),
  ok c = true -> I st ->
  I {| world := w; client_slot := client_slot st; index_slot := index_slot st;
       trace := trace st ++ [{| ev_call := c; ev_outcome := r |}] |}.

Lemma preserves_ret {A : Type} (a : A) : preserves I (@ret weaviate A a).
Proof. intros st H. exact H. Qed.

Lemma preserves_raise {A : Type} (e : exn) : preserves I (@raise weaviate A e).
Proof. intros st H. exact H. Qed.

Lemma preserves_invoke {A : Type} (c : call)
    (op : World weaviate -> result A * World weaviate) :
  ok c = true -> preserves I (invoke c op).
Proof.
  intros Hc st H. unfold invoke. destruct (op (world st)) as [r w]. simpl.
  now apply I_event.
Qed.

Lemma preserves_bind {A B : Type} (m : M weaviate A) (k : A -> M weaviate B) :
  preserves I m -> (forall a, preserves I (k a)) -> preserves I (bind m k).
Proof.
  intros Hm Hk st H. unfold bind. specialize (Hm st H).
  destruct (m st) as [[a|e] st1]; simpl in *; [now apply Hk | exact Hm].
Qed.

Lemma preserves_item0 {A : Type} (l : list A) : preserves I (@item0 weaviate A l).
Proof. destruct l; intros st H; exact H. Qed.

Lemma preserves_getattr {A : Type} (o : option A) : preserves I (@getattr weaviate A o).
Proof. destruct o; intros st H; exact H. Qed.

Lemma preserves_check_keywords (explicit : list string) (kw : kwargs) :
  preserves I (@check_keywords weaviate explicit kw).
Proof.
  unfold check_keywords. destruct (existsb _ explicit); intros st H; exact H.
Qed.

Lemma preserves_cached_property {A : Type} (slot : State weaviate -> option A)
    (store : A -> State weaviate -> State weaviate) (body : M weaviate A) :
  (forall v st, I st -> I (store v st)) ->
  preserves I body -> preserves I (cached_property slot store body).
Proof.
  intros Hstore Hbody st H. unfold cached_property.
  destruct (slot st) as [v|]; [exact H|].
  specialize (Hbody st H).
  destruct (body st) as [[v|e] st1]; simpl in *; [now apply Hstore | exact Hbody].
Qed.

Lemma preserves_instance_attribute {A : Type} (property : M weaviate A) :
  preserves I property -> preserves I (instance_attribute property).
Proof.
  intros Hp st H. unfold instance_attribute. specialize (Hp st H) as H1.
  destruct (property st) as [[a|e] st1]; cbn [snd] in *; [exact H1|].
  destruct e; try exact H1. exact (Hp st1 H1).
Qed.

Lemma preserves_returning {A : Type} (r : result A) :
  preserves I (@returning weaviate A r).
Proof. intros st H. exact H. Qed.

Variable types : TypesModule.
Variable self : WeaviateVectorStore.

Lemma preserves_client_body :
  (forall c, is_connect c = true -> ok c = true) ->
  preserves I (_client_body weaviate types self).
Proof.
  intros Hok. unfold _client_body. cbv zeta.
  repeat match goal with
         | |- preserves _ (if ?b then _ else _) => destruct b
         end;
    try apply preserves_ret;
    (apply preserves_bind; [apply preserves_invoke; apply Hok; reflexivity
                           | intros ?; apply preserves_ret]).
Qed.

Hypothesis preserves_client : preserves I (_client weaviate types self).

Lemma preserves_index_body :
  (forall c, is_collections c = true -> ok c = true) ->
  preserves I (_index_body weaviate types self).
Proof.
  intros Hok. unfold _index_body. cbv zeta.
  apply preserves_bind; [exact preserves_client | intros c].
  apply preserves_bind; [apply preserves_getattr | intros client].
  apply preserves_bind; [apply preserves_invoke; apply Hok; reflexivity | intros found].
  destruct found;
    (apply preserves_bind; [exact preserves_client | intros c']);
    (apply preserves_bind; [apply preserves_getattr | intros client']);
    apply preserves_invoke; apply Hok; reflexivity.
Qed.

Lemma preserves_close_connection :
  (forall c, is_close c = true -> ok c = true) ->
  preserves I (close_connection weaviate types self).
Proof.
  intros Hok. unfold close_connection.
  apply preserves_bind; [exact preserves_client | intros c].
  apply preserves_bind; [apply preserves_getattr | intros client].
  apply preserves_invoke, Hok. reflexivity.
Qed.

Hypothesis preserves_index : preserves I (_index weaviate types self).

Lemma preserves_add (input : add_input) (kw : kwargs) :
  (forall c, is_insert c = true -> ok c = true) ->
  preserves I (add weaviate types self input kw).
Proof.
  intros Hok. unfold add, add_documents. cbv zeta.
  destruct (Nat.ltb _ 2).
  - apply preserves_bind; [exact preserves_index | intros coll].
    apply preserves_bind; [apply preserves_item0 | intros d1].
    apply preserves_bind; [apply preserves_item0 | intros d2].
    apply preserves_bind; [apply preserves_check_keywords | intros _].
    apply preserves_invoke, Hok. reflexivity.
  - apply preserves_bind; [exact preserves_index | intros coll].
    apply preserves_invoke, Hok. reflexivity.
Qed.

Lemma preserves_retrieve (query : string) (kw : kwargs) :
  (forall c, is_near_text c = true -> ok c = true) ->
  preserves I (retrieve weaviate types self query kw).
Proof.
  intros Hok. unfold retrieve.
  apply preserves_bind; [exact preserves_index | intros coll].
  apply preserves_bind; [apply preserves_check_keywords | intros _].
  apply preserves_bind; [apply preserves_invoke, Hok; reflexivity | intros qr].
  apply preserves_bind; [apply preserves_item0 | intros o].
  apply preserves_returning.
Qed.

End Preserving.

(** An invariant that every operation keeps holds after every history. *)
Lemma preserved_by_history (weaviate : WeaviateAPI) (types : TypesModule)
    (self : WeaviateVectorStore) (I : State weaviate -> Prop) :
  preserves I (_client weaviate types self) ->
  preserves I (_index weaviate types self) ->
  preserves I (close_connection weaviate types self) ->
  (forall input kw, preserves I (add weaviate types self input kw)) ->
  (forall query kw, preserves I (retrieve weaviate types self query kw)) ->
  forall ops st, I st -> I (run_ops weaviate types self ops st).
Proof.
  intros Hc Hi Hx Ha Hr ops. unfold run_ops.
  induction ops as [|o ops IH]; intros st H; simpl; [exact H|].
  apply IH. destruct o; simpl.
  - now apply Ha.
  - now apply Hr.
  - now apply Hx.
  - now apply Hc.
  - now apply Hi.
Qed.

(** ** What the two properties do to the slots *)

Section Slots.

Variable weaviate : WeaviateAPI.
Variable types : TypesModule.
Variable self : WeaviateVectorStore.

Lemma client_keeps_index_slot (st : State weaviate) :
  index_slot (snd (_client weaviate types self st)) = index_slot st.
Proof.
  apply (preserves_instance_attribute weaviate (fun s => index_slot s = index_slot st));
    [|reflexivity].
  apply preserves_cached_property.
  - intros v s H. exact H.
  - apply (preserves_client_body weaviate _ (fun _ => true)); auto.
Qed.

Lemma index_body_keeps_index_slot (st : State weaviate) :
  index_slot (snd (_index_body weaviate types self st)) = index_slot st.
Proof.
  apply (preserves_index_body weaviate
           (fun s => index_slot s = index_slot st) (fun _ => true)); auto.
  intros s H. rewrite client_keeps_index_slot. exact H.
Qed.

(** A collection is only handed out to a client that is cached. *)
Lemma index_body_ok_client (st st' : State weaviate) (coll : handle) :
  _index_body weaviate types self st = (Ok coll, st') ->
  exists c, client_slot st' = Some (Some c).
Proof.
  intros H.
  destruct (_client weaviate types self st) as [[[c|]|e] st1] eqn:Hc.
  - pose proof (client_cached _ _ _ _ _ _ Hc) as Hs.
    destruct (collections_exists weaviate c (index_name self) (world st1))
      as [[found|e] w] eqn:Hx.
    + rewrite (index_body_after_exists weaviate types self st st1 c found w Hc Hx) in H.
      exists c.
      assert (E : client_slot st' = client_slot st1).
      { destruct found;
          match type of H with
          | invoke ?c ?op ?s = _ =>
              pose proof (invoke_slots weaviate c op s) as [E _]; rewrite H in E; exact E
          end. }
      now rewrite E.
    + rewrite (index_body_exists_raises weaviate types self st st1 c e w Hc Hx) in H. discriminate H.
  - rewrite (index_body_no_client weaviate types self st st1 Hc) in H. discriminate H.
  - rewrite (index_body_client_raises weaviate types self st st1 e Hc) in H. discriminate H.
Qed.

Lemma client_preserves_coherent : preserves coherent (_client weaviate types self).
Proof.
  intros st H. destruct (client_slot st) as [v|] eqn:Hs.
  - now rewrite (client_hit weaviate types self st v Hs).
  - intros Hi. rewrite client_keeps_index_slot in Hi.
    destruct (H Hi) as [c Hc]. congruence.
Qed.

Lemma index_preserves_coherent : preserves coherent (_index weaviate types self).
Proof.
  apply preserves_instance_attribute.
  intros st H. destruct (index_slot st) as [v|] eqn:Hs.
  - now rewrite (index_property_hit weaviate types self st v Hs).
  - rewrite (index_miss weaviate types self st Hs).
    pose proof (index_body_keeps_index_slot st) as Hk.
    destruct (_index_body weaviate types self st) as [[coll|e] st'] eqn:Hb; simpl in *.
    + intros _. apply (index_body_ok_client st st' coll Hb).
    + intros Hi. congruence.
Qed.

Lemma coherent_event (st : State weaviate) (c : call) (r : outcome)
    (w : World weaviate) :
  (fun _ : call => true) c = true -> coherent st ->
  coherent {| world := w; client_slot := client_slot st; index_slot := index_slot st;
              trace := trace st ++ [{| ev_call := c; ev_outcome := r |}] |}.
Proof. intros _ H. exact H. Qed.

(** X1: in every history of an instance that starts with nothing cached, a
    cached collection comes with a cached client that is not None. *)
Theorem collection_cached_with_client (ops : list operation) (w : World weaviate) :
  coherent (run_ops weaviate types self ops (fresh weaviate w)).
Proof.
  apply preserved_by_history.
  - exact client_preserves_coherent.
  - exact index_preserves_coherent.
  - apply (preserves_close_connection weaviate coherent (fun _ => true) coherent_event);
      auto using client_preserves_coherent.
  - intros input kw.
    apply (preserves_add weaviate coherent (fun _ => true) coherent_event);
      auto using index_preserves_coherent.
  - intros query kw.
    apply (preserves_retrieve weaviate coherent (fun _ => true) coherent_event);
      auto using index_preserves_coherent.
  - intros Hi. now contradiction Hi.
Qed.

Lemma connections_opened_app (t1 t2 : list event) :
  connections_opened (t1 ++ t2) = connections_opened t1 + connections_opened t2.
Proof. unfold connections_opened. now rewrite filter_app, length_app. Qed.

Lemma collections_obtained_app (t1 t2 : list event) :
  collections_obtained (t1 ++ t2) = collections_obtained t1 + collections_obtained t2.
Proof. unfold collections_obtained. now rewrite filter_app, length_app. Qed.

Lemma connections_opened_one (c : call) (r : outcome) :
  connections_opened [{| ev_call := c; ev_outcome := r |}] =
  match r with
  | Returned => if is_connect c then 1 else 0
  | Raised _ => 0
  end.
Proof.
  unfold connections_opened. cbn [filter]. unfold returned. cbn [ev_call ev_outcome].
  destruct r; [|reflexivity]. cbn [andb]. destruct (is_connect c); reflexivity.
Qed.

Lemma collections_obtained_one (c : call) (r : outcome) :
  collections_obtained [{| ev_call := c; ev_outcome := r |}] =
  match r with
  | Returned => if is_fetch c then 1 else 0
  | Raised _ => 0
  end.
Proof.
  unfold collections_obtained. cbn [filter]. unfold returned. cbn [ev_call ev_outcome].
  destruct r; [|reflexivity]. cbn [andb]. destruct (is_fetch c); reflexivity.
Qed.

Lemma client_counts_connections :
  preserves (fun st : State weaviate =>
               connections_opened (trace st) =
               match client_slot st with
               | Some (Some _) => 1
               | _ => 0
               end) (_client weaviate types self).
Proof.
  apply preserves_instance_attribute.
  intros st H. destruct (client_slot st) as [v|] eqn:Hs.
  - rewrite (client_property_hit weaviate types self st v Hs). simpl. now rewrite Hs.
  - destruct (client_miss_cases weaviate types self st Hs) as [E | [c [r [w [Hc E]]]]]; rewrite E.
    + exact H.
    + destruct r as [h|e]; cbn [snd trace set_client_slot client_slot outcome_of];
        rewrite connections_opened_app, connections_opened_one, H, ?Hc; reflexivity.
Qed.

(** X2: in every history of an instance that starts with nothing cached,
    the number of connect calls that returned a client is 1 when a client
    is cached and 0 otherwise: an instance never holds a second connection. *)
Theorem one_connection_per_instance (ops : list operation) (w : World weaviate) :
  connections_opened (trace (run_ops weaviate types self ops (fresh weaviate w))) =
    match client_slot (run_ops weaviate types self ops (fresh weaviate w)) with
    | Some (Some _) => 1
    | _ => 0
    end /\
  connections_opened (trace (run_ops weaviate types self ops (fresh weaviate w))) <= 1.
Proof.
  set (J := fun st : State weaviate =>
              connections_opened (trace st) =
              match client_slot st with
              | Some (Some _) => 1
              | _ => 0
              end).
  assert (Hev : forall (st : State weaviate) c r w',
             negb (is_connect c) = true -> J st ->
             J {| world := w'; client_slot := client_slot st; index_slot := index_slot st;
                  trace := trace st ++ [{| ev_call := c; ev_outcome := r |}] |}).
  { intros st c r w' Hc H. unfold J in *. cbn [trace client_slot].
    rewrite connections_opened_app, connections_opened_one, H.
    apply negb_true_iff in Hc. rewrite Hc. destruct r; lia. }
  assert (Hi : preserves J (_index weaviate types self)).
  { apply preserves_instance_attribute.
    apply preserves_cached_property; [intros v st H; exact H|].
    apply (preserves_index_body weaviate J (fun c => negb (is_connect c)) Hev);
      [exact client_counts_connections|].
    intros c; destruct c; simpl; intros H; try reflexivity; discriminate H. }
  assert (HJ : J (run_ops weaviate types self ops (fresh weaviate w))).
  { apply preserved_by_history.
    - exact client_counts_connections.
    - exact Hi.
    - apply (preserves_close_connection weaviate J (fun c => negb (is_connect c)) Hev);
        [exact client_counts_connections|].
      intros c; destruct c; simpl; intros H; try reflexivity; discriminate H.
    - intros input kw.
      apply (preserves_add weaviate J (fun c => negb (is_connect c)) Hev); [exact Hi|].
      intros c; destruct c; simpl; intros H; try reflexivity; discriminate H.
    - intros query kw.
      apply (preserves_retrieve weaviate J (fun c => negb (is_connect c)) Hev); [exact Hi|].
      intros c; destruct c; simpl; intros H; try reflexivity; discriminate H.
    - reflexivity. }
  unfold J in HJ. split; [exact HJ|]. rewrite HJ.
  destruct (client_slot _) as [[c|]|]; lia.
Qed.

(** The body of [_index] obtains a collection exactly when it returns. *)
Lemma index_body_counts_collections (st : State weaviate) :
  collections_obtained (trace (snd (_index_body weaviate types self st))) =
  collections_obtained (trace st) +
  match fst (_index_body weaviate types self st) with
  | Ok _ => 1
  | Raise _ => 0
  end.
Proof.
  assert (Hc0 : collections_obtained (trace (snd (_client weaviate types self st))) =
                collections_obtained (trace st)).
  { apply (preserves_instance_attribute weaviate
             (fun s => collections_obtained (trace s) = collections_obtained (trace st)));
      [|reflexivity].
    apply preserves_cached_property; [intros v s H; exact H|].
    apply (preserves_client_body weaviate _ (fun c => negb (is_fetch c))).
    - intros s c r w' Hc H. cbn [trace].
      rewrite collections_obtained_app, collections_obtained_one, H.
      apply negb_true_iff in Hc. rewrite Hc. destruct r; lia.
    - intros c; destruct c; simpl; intros H; try reflexivity; discriminate H. }
  destruct (_client weaviate types self st) as [[[c|]|e] st1] eqn:Hc; simpl in Hc0.
  - destruct (collections_exists weaviate c (index_name self) (world st1))
      as [[found|e] w'] eqn:Hx.
    + rewrite (index_body_after_exists weaviate types self st st1 c found w' Hc Hx).
      destruct found; rewrite invoke_trace, invoke_result; cbn [world trace];
        match goal with
        | |- context [fst ?x] => destruct x as [[h|e] w'']
        end; cbn [fst outcome_of];
        rewrite !collections_obtained_app, !collections_obtained_one, Hc0;
        cbn [is_fetch]; lia.
    + rewrite (index_body_exists_raises weaviate types self st st1 c e w' Hc Hx). cbn [fst snd trace].
      rewrite collections_obtained_app, collections_obtained_one, Hc0. lia.
  - rewrite (index_body_no_client weaviate types self st st1 Hc). cbn [fst snd]. lia.
  - rewrite (index_body_client_raises weaviate types self st st1 e Hc). cbn [fst snd]. lia.
Qed.

Lemma index_counts_collections :
  preserves (fun st : State weaviate =>
               collections_obtained (trace st) =
               match index_slot st with
               | Some _ => 1
               | None => 0
               end) (_index weaviate types self).
Proof.
  apply preserves_instance_attribute.
  intros st H. destruct (index_slot st) as [v|] eqn:Hs.
  - rewrite (index_property_hit weaviate types self st v Hs). simpl. now rewrite Hs.
  - rewrite (index_miss weaviate types self st Hs).
    pose proof (index_body_counts_collections st) as Hb.
    pose proof (index_body_keeps_index_slot st) as Hk.
    destruct (_index_body weaviate types self st) as [[coll|e] st'];
      simpl in *; rewrite Hb, H; [lia|]. rewrite Hk, Hs. lia.
Qed.

(** X3: in every history of an instance that starts with nothing cached,
    the number of get or create calls that returned a collection is 1 when
    a collection is cached and 0 otherwise: an instance obtains its
    collection at most once. *)
Theorem one_collection_per_instance (ops : list operation) (w : World weaviate) :
  collections_obtained (trace (run_ops weaviate types self ops (fresh weaviate w))) =
    match index_slot (run_ops weaviate types self ops (fresh weaviate w)) with
    | Some _ => 1
    | None => 0
    end /\
  collections_obtained (trace (run_ops weaviate types self ops (fresh weaviate w))) <= 1.
Proof.
  set (J := fun st : State weaviate =>
              collections_obtained (trace st) =
              match index_slot st with
              | Some _ => 1
              | None => 0
              end).
  assert (Hev : forall (st : State weaviate) c r w',
             negb (is_fetch c) = true -> J st ->
             J {| world := w'; client_slot := client_slot st; index_slot := index_slot st;
                  trace := trace st ++ [{| ev_call := c; ev_outcome := r |}] |}).
  { intros st c r w' Hc H. unfold J in *. cbn [trace index_slot].
    rewrite collections_obtained_app, collections_obtained_one, H.
    apply negb_true_iff in Hc. rewrite Hc. destruct r; lia. }
  assert (Hc : preserves J (_client weaviate types self)).
  { apply preserves_instance_attribute.
    apply preserves_cached_property; [intros v st H; exact H|].
    apply (preserves_client_body weaviate J (fun c => negb (is_fetch c)) Hev).
    intros c; destruct c; simpl; intros H; try reflexivity; discriminate H. }
  assert (HJ : J (run_ops weaviate types self ops (fresh weaviate w))).
  { apply preserved_by_history.
    - exact Hc.
    - exact index_counts_collections.
    - apply (preserves_close_connection weaviate J (fun c => negb (is_fetch c)) Hev);
        [exact Hc|].
      intros c; destruct c; simpl; intros H; try reflexivity; discriminate H.
    - intros input kw.
      apply (preserves_add weaviate J (fun c => negb (is_fetch c)) Hev);
        [exact index_counts_collections|].
      intros c; destruct c; simpl; intros H; try reflexivity; discriminate H.
    - intros query kw.
      apply (preserves_retrieve weaviate J (fun c => negb (is_fetch c)) Hev);
        [exact index_counts_collections|].
      intros c; destruct c; simpl; intros H; try reflexivity; discriminate H.
    - reflexivity. }
  unfold J in HJ. split; [exact HJ|]. rewrite HJ.
  destruct (index_slot _); lia.
Qed.

End Slots.

(** ** Where the calls go, and which calls are made *)

Section Calls.

Variable weaviate : WeaviateAPI.
Variable types : TypesModule.
Variable self : WeaviateVectorStore.

Lemma add_documents_repeated_keyword (d : Document) (kw : kwargs)
    (st st1 : State weaviate) (coll : handle) :
  _index weaviate types self st = (Ok coll, st1) ->
  has_key "properties" kw || has_key "uuid" kw = true ->
  add_documents weaviate types self [d] kw st = (Raise TypeError, st1).
Proof.
  intros Hi Hk. unfold add_documents.
  cbn [Nat.ltb Nat.leb List.length]. unfold bind at 1. rewrite Hi.
  unfold bind, item0, ret, check_keywords. cbn [existsb].
  rewrite orb_false_r, Hk. reflexivity.
Qed.

Lemma retrieve_repeated_keyword (query : string) (kw : kwargs)
    (st st1 : State weaviate) (coll : handle) :
  _index weaviate types self st = (Ok coll, st1) ->
  has_key "query" kw = true ->
  retrieve weaviate types self query kw st = (Raise TypeError, st1).
Proof.
  intros Hi Hk. unfold retrieve. unfold bind at 1. rewrite Hi.
  unfold bind at 1. unfold check_keywords. cbn [existsb]. rewrite Hk. reflexivity.
Qed.

Lemma retrieve_no_index (query : string) (kw : kwargs) (st st1 : State weaviate)
    (e : exn) :
  _index weaviate types self st = (Raise e, st1) ->
  retrieve weaviate types self query kw st = (Raise e, st1).
Proof. intros Hi. unfold retrieve, bind. now rewrite Hi. Qed.

Lemma one_collection_event (st : State weaviate) (c : call) (r : outcome)
    (w : World weaviate) :
  (fun c => match data_target c with None => true | Some _ => false end) c = true ->
  one_collection st ->
  one_collection
    {| world := w; client_slot := client_slot st; index_slot := index_slot st;
       trace := trace st ++ [{| ev_call := c; ev_outcome := r |}] |}.
Proof.
  intros Hc H ev coll Hin Ht. cbn [trace index_slot] in *.
  apply in_app_or in Hin. destruct Hin as [Hin | [<- | []]].
  - now apply (H ev coll).
  - cbn [ev_call] in Ht. rewrite Ht in Hc. discriminate Hc.
Qed.

Lemma one_collection_invoke {A : Type} (st : State weaviate) (coll : handle)
    (c : call) (op : World weaviate -> result A * World weaviate) :
  one_collection st -> index_slot st = Some coll -> data_target c = Some coll ->
  one_collection (snd (invoke c op st)).
Proof.
  intros H Hs Hc. unfold invoke. destruct (op (world st)) as [r w].
  intros ev coll' Hin Ht. cbn [snd trace index_slot] in *.
  apply in_app_or in Hin. destruct Hin as [Hin | [<- | []]].
  - now apply (H ev coll').
  - cbn [ev_call] in Ht. congruence.
Qed.

Lemma client_preserves_one_collection :
  preserves one_collection (_client weaviate types self).
Proof.
  apply preserves_instance_attribute.
  apply preserves_cached_property; [intros v st H; exact H|].
  apply (preserves_client_body weaviate one_collection _ one_collection_event).
  intros c; destruct c; simpl; intros H; try reflexivity; discriminate H.
Qed.

Lemma index_preserves_one_collection :
  preserves one_collection (_index weaviate types self).
Proof.
  apply preserves_instance_attribute.
  intros st H. destruct (index_slot st) as [v|] eqn:Hs.
  - now rewrite (index_property_hit weaviate types self st v Hs).
  - rewrite (index_miss weaviate types self st Hs).
    pose proof (preserves_index_body weaviate one_collection _ one_collection_event
                  types self client_preserves_one_collection
                  ltac:(intros c; destruct c; simpl; intros E; try reflexivity;
                        discriminate E) st H) as Hb.
    pose proof (index_body_keeps_index_slot weaviate types self st) as Hk.
    destruct (_index_body weaviate types self st) as [[coll|e] st']; cbn [snd] in *;
      [|exact Hb].
    intros ev coll' Hin Ht. cbn [trace set_index_slot] in Hin.
    specialize (Hb ev coll' Hin Ht). congruence.
Qed.

Lemma add_preserves_one_collection (input : add_input) (kw : kwargs) :
  preserves one_collection (add weaviate types self input kw).
Proof.
  intros st H. rewrite add_as_documents.
  pose proof (index_preserves_one_collection st H) as H1.
  destruct (_index weaviate types self st) as [[coll|e] st1] eqn:Hi; cbn [snd] in H1.
  - pose proof (index_cached _ _ _ _ _ _ Hi) as Hs.
    destruct (documents_of self input) as [|d [|d' l]].
    + now rewrite (add_documents_none _ _ _ kw st st1 coll Hi).
    + destruct (has_key "properties" kw || has_key "uuid" kw) eqn:Hk.
      * now rewrite (add_documents_repeated_keyword d kw st st1 coll Hi Hk).
      * apply orb_false_elim in Hk. destruct Hk as [Hp Hu].
        rewrite (add_documents_one _ _ _ d kw st st1 coll Hi Hp Hu).
        now apply (one_collection_invoke st1 coll).
    + rewrite (add_documents_many _ _ _ (d :: d' :: l) kw st st1 coll Hi
                 ltac:(simpl; lia)).
      now apply (one_collection_invoke st1 coll).
  - now rewrite (add_documents_no_index _ _ _ _ kw st st1 e Hi).
Qed.

Lemma retrieve_preserves_one_collection (query : string) (kw : kwargs) :
  preserves one_collection (retrieve weaviate types self query kw).
Proof.
  intros st H.
  pose proof (index_preserves_one_collection st H) as H1.
  destruct (_index weaviate types self st) as [[coll|e] st1] eqn:Hi; cbn [snd] in H1.
  - pose proof (index_cached _ _ _ _ _ _ Hi) as Hs.
    destruct (has_key "query" kw) eqn:Hk.
    + now rewrite (retrieve_repeated_keyword query kw st st1 coll Hi Hk).
    + rewrite (retrieve_after_index _ _ _ query kw st st1 coll Hi Hk).
      pose proof (one_collection_invoke st1 coll (QueryNearText coll query kw)
                    (query_near_text weaviate coll query kw) H1 Hs eq_refl) as H2.
      unfold bind at 1.
      destruct (invoke (QueryNearText coll query kw)
                  (query_near_text weaviate coll query kw) st1) as [[qr|e] st2];
        cbn [snd] in H2; [|exact H2].
      unfold bind. destruct (objects qr); exact H2.
  - now rewrite (retrieve_no_index query kw st st1 e Hi).
Qed.

(** X4: in every history of an instance that starts with nothing cached,
    every insert, insert_many and near_text call made so far went to the
    collection that is cached: what is added and what is queried is one
    and the same collection. *)
Theorem data_calls_go_to_cached_collection (ops : list operation) (w : World weaviate) :
  one_collection (run_ops weaviate types self ops (fresh weaviate w)).
Proof.
  apply preserved_by_history.
  - exact client_preserves_one_collection.
  - exact index_preserves_one_collection.
  - apply (preserves_close_connection weaviate one_collection _ one_collection_event);
      [exact client_preserves_one_collection|].
    intros c; destruct c; simpl; intros H; try reflexivity; discriminate H.
  - exact add_preserves_one_collection.
  - exact retrieve_preserves_one_collection.
  - intros ev coll [].
Qed.

(** X5: [close_connection] on an instance with a cached client makes one
    call, [close] of that client, and hands on its outcome; it leaves both
    slots as they are, so whatever the instance does next uses the closed
    client and never connects again. *)
Theorem close_keeps_the_cache (st : State weaviate) (c : handle) :
  client_slot st = Some (Some c) ->
  close_connection weaviate types self st =
    invoke (ClientClose c) (client_close weaviate c) st /\
  client_slot (snd (close_connection weaviate types self st)) = Some (Some c) /\
  index_slot (snd (close_connection weaviate types self st)) = index_slot st /\
  (forall ops,
     _client weaviate types self
       (run_ops weaviate types self ops (snd (close_connection weaviate types self st))) =
       (Ok (Some c),
        run_ops weaviate types self ops (snd (close_connection weaviate types self st))) /\
     connect_calls
       (trace (run_ops weaviate types self ops
                 (snd (close_connection weaviate types self st)))) =
     connect_calls (trace st)).
Proof.
  intros Hs.
  assert (E : close_connection weaviate types self st =
              invoke (ClientClose c) (client_close weaviate c) st).
  { unfold close_connection. unfold bind at 1.
    rewrite (client_hit weaviate types self st (Some c) Hs). reflexivity. }
  destruct (invoke_slots weaviate (ClientClose c) (client_close weaviate c) st)
    as [H1 [H2 _]].
  rewrite E. split; [reflexivity|]. split; [now rewrite H1|]. split; [exact H2|].
  intros ops.
  destruct (no_connect_once_cached weaviate types self (Some c) ops
              (snd (invoke (ClientClose c) (client_close weaviate c) st))
              ltac:(now rewrite H1)) as [H3 H4].
  split; [now apply client_hit|].
  rewrite H4, invoke_trace. unfold connect_calls.
  rewrite calls_app, filter_app. simpl. apply app_nil_r.
Qed.

(** X6: with two or more documents the keyword arguments of [add] are not
    used: every choice of them gives the same run. *)
Theorem batch_add_ignores_keywords (input : add_input) (kw kw' : kwargs)
    (st : State weaviate) :
  2 <= List.length (documents_of self input) ->
  add weaviate types self input kw st = add weaviate types self input kw' st.
Proof.
  intros Hlen. rewrite !add_as_documents. unfold add_documents.
  destruct (Nat.ltb_spec (List.length (documents_of self input)) 2) as [Hlt|_]; [lia|].
  reflexivity.
Qed.

(** X7: keyword arguments that repeat a keyword the adapter passes itself
    stop the call before it is made. With one document, [properties] or
    [uuid] among the keyword arguments makes [add] raise TypeError with no
    insert call; [query] among them makes [retrieve] raise TypeError with no
    near_text call. The collection has been obtained by then. *)
Theorem repeated_keyword_is_type_error (kw : kwargs) (st st1 : State weaviate)
    (coll : handle) :
  _index weaviate types self st = (Ok coll, st1) ->
  (forall input d,
     documents_of self input = [d] ->
     has_key "properties" kw || has_key "uuid" kw = true ->
     add weaviate types self input kw st = (Raise TypeError, st1) /\
     insert_calls (new_events st st1) = []) /\
  (forall query,
     has_key "query" kw = true ->
     retrieve weaviate types self query kw st = (Raise TypeError, st1) /\
     near_text_calls (new_events st st1) = []).
Proof.
  intros Hi. destruct (index_trace _ _ _ _ _ _ Hi) as [t [E F]].
  rewrite (new_events_app _ _ _ E). split.
  - intros input d Hd Hk. split.
    + rewrite add_as_documents, Hd. now apply add_documents_repeated_keyword with coll.
    + apply filter_none. now apply setup_not_insert.
  - intros query Hk. split.
    + now apply retrieve_repeated_keyword with coll.
    + apply filter_none. now apply setup_not_near_text.
Qed.

(** X8: when the connection is opened but the create-or-fetch then fails,
    the access to [_index] raises with the client cached and no collection
    cached; the next access to [_index] asks the same client again without
    a new connect call. *)
Theorem failed_index_keeps_client (st st1 st' : State weaviate) (c : handle) (e : exn) :
  index_slot st = None ->
  _client weaviate types self st = (Ok (Some c), st1) ->
  _index weaviate types self st = (Raise e, st') ->
  client_slot st' = Some (Some c) /\
  index_slot st' = None /\
  connect_calls (trace (snd (_index weaviate types self st'))) = connect_calls (trace st').
Proof.
  intros Hs Hc Hi.
  pose proof (client_cached _ _ _ _ _ _ Hc) as Hs1.
  (* what one evaluation leaves when it raises *)
  assert (F : forall e0 s, _index_property weaviate types self st = (Raise e0, s) ->
                           client_slot s = Some (Some c)).
  { intros e0 s Hp. rewrite (index_miss weaviate types self st Hs) in Hp.
    assert (Hb : _index_body weaviate types self st = (Raise e0, s)).
    { destruct (_index_body weaviate types self st) as [[h|e'] s']; [discriminate Hp|].
      exact Hp. }
    destruct (collections_exists weaviate c (index_name self) (world st1))
      as [[found|e'] w] eqn:Hx.
    - rewrite (index_body_after_exists weaviate types self st st1 c found w Hc Hx) in Hb.
      destruct found;
        match type of Hb with
        | invoke ?c ?op ?s = _ =>
            pose proof (invoke_slots weaviate c op s) as [E _]; rewrite Hb in E;
            cbn [snd client_slot] in E; now rewrite E
        end.
    - rewrite (index_body_exists_raises weaviate types self st st1 c e' w Hc Hx) in Hb.
      inversion Hb. exact Hs1. }
  (* a second evaluation keeps the client *)
  assert (K : keeps (fun s : State weaviate => client_slot s = Some (Some c))
                (fun _ => true) (_index_property weaviate types self)).
  { apply keeps_cached_property; [intros v s H; exact H | reflexivity |].
    apply keeps_index_body;
      [intros s s' E1 E2 H; cbv beta in *; congruence | | reflexivity].
    apply keeps_instance_attribute.
    apply keeps_cached_hit. intros s H. rewrite H. discriminate. }
  assert (H1 : client_slot st' = Some (Some c)).
  { unfold _index in Hi.
    destruct (instance_attribute_cases (_index_property weaviate types self) st)
      as [[E _] | [s [E1 E]]]; rewrite E in Hi.
    - exact (F e st' Hi).
    - pose proof (proj1 (K s (F _ s E1))) as H. now rewrite Hi in H. }
  split; [exact H1|]. split.
  - exact (index_raise_caches_nothing weaviate types self st st' e Hi).
  - exact (proj2 (no_connect_once_cached weaviate types self (Some c) [OpIndex] st' H1)).
Qed.

End Calls.

Section CallClasses.

Variable weaviate : WeaviateAPI.
Variable types : TypesModule.
Variable self : WeaviateVectorStore.

Lemma keeps_weaken {A : Type} (I : State weaviate -> Prop) (P Q : call -> bool)
    (m : M weaviate A) :
  (forall c, P c = true -> Q c = true) -> keeps I P m -> keeps I Q m.
Proof.
  intros HPQ Hm st HI. destruct (Hm st HI) as [H1 [t [E F]]].
  split; [exact H1|]. exists t. split; [exact E|].
  now apply (forallb_weaken P Q).
Qed.

Lemma client_only_connects :
  keeps (fun _ => True) is_connect (_client weaviate types self).
Proof.
  apply keeps_instance_attribute.
  apply keeps_cached_property; auto.
  apply keeps_client_body; auto.
Qed.

Lemma keeps_anything_invoke {A : Type} (P : call -> bool) (c : call)
    (op : World weaviate -> result A * World weaviate) :
  P c = true -> keeps (fun _ : State weaviate => True) P (invoke c op).
Proof. intros Hc. apply keeps_invoke; auto. Qed.

(** X9: each operation makes only calls of its own kind, besides those of
    the connection and of the create-or-fetch: [add] never queries or
    closes, [retrieve] never inserts or closes, [close_connection] never
    touches a collection, [_client] only connects and [_index] only
    connects and asks for the collection. *)
Theorem operations_make_only_their_calls (o : operation) (st : State weaviate) :
  forallb (allowed o) (calls (new_events st (run_op weaviate types self st o))) = true.
Proof.
  assert (H : exists t, trace (run_op weaviate types self st o) = trace st ++ t /\
                        forallb (allowed o) (calls t) = true).
  { destruct o as [input kw | query kw | | | ]; cbn [run_op].
    - enough (K : keeps (fun _ : State weaviate => True) (allowed (OpAdd input kw))
                    (add weaviate types self input kw))
        by exact (proj2 (K st Logic.I)).
      unfold add, add_documents. cbv zeta.
      assert (Hi : keeps (fun _ : State weaviate => True) (allowed (OpAdd input kw))
                     (_index weaviate types self)).
      { apply (keeps_weaken _ is_setup); [|apply index_only_setup].
        intros c Hc. cbn [allowed]. now rewrite Hc. }
      destruct (Nat.ltb _ 2).
      + apply keeps_bind; [exact Hi | intros coll].
        apply keeps_bind; [apply keeps_item0 | intros d1].
        apply keeps_bind; [apply keeps_item0 | intros d2].
        apply keeps_bind; [apply keeps_check_keywords | intros _].
        apply keeps_anything_invoke. reflexivity.
      + apply keeps_bind; [exact Hi | intros coll].
        apply keeps_anything_invoke. reflexivity.
    - enough (K : keeps (fun _ : State weaviate => True) (allowed (OpRetrieve query kw))
                    (retrieve weaviate types self query kw))
        by exact (proj2 (K st Logic.I)).
      unfold retrieve.
      apply keeps_bind; [|intros coll].
      { apply (keeps_weaken _ is_setup); [|apply index_only_setup].
        intros c Hc. cbn [allowed]. now rewrite Hc. }
      apply keeps_bind; [apply keeps_check_keywords | intros _].
      apply keeps_bind; [apply keeps_anything_invoke; reflexivity | intros qr].
      apply keeps_bind; [apply keeps_item0 | intros obj].
      apply keeps_returning.
    - enough (K : keeps (fun _ : State weaviate => True) (allowed OpCloseConnection)
                    (close_connection weaviate types self))
        by exact (proj2 (K st Logic.I)).
      unfold close_connection.
      apply keeps_bind; [|intros c].
      { apply (keeps_weaken _ is_connect); [|apply client_only_connects].
        intros c Hc. cbn [allowed]. now rewrite Hc. }
      apply keeps_bind; [apply keeps_getattr | intros client].
      apply keeps_anything_invoke. reflexivity.
    - exact (proj2 (client_only_connects st Logic.I)).
    - exact (proj2 (index_only_setup weaviate types self st Logic.I)). }
  destruct H as [t [E F]]. now rewrite (new_events_app _ _ _ E).
Qed.

End CallClasses.

(** ** Why an operation fails *)

Section Failures.

Variable weaviate : WeaviateAPI.
Variable types : TypesModule.
Variable self : WeaviateVectorStore.

Lemma raised_after (st st1 st' : State weaviate) (c : call) (e : exn) :
  (exists t, trace st1 = trace st ++ t) ->
  trace st' = trace st1 ++ [{| ev_call := c; ev_outcome := Raised e |}] ->
  raised_by_client (new_events st st') e.
Proof.
  intros [t E] H. exists t, c. apply new_events_app.
  rewrite H, E, app_assoc. reflexivity.
Qed.

Lemma invoke_failure {A : Type} (c : call)
    (op : World weaviate -> result A * World weaviate) (st : State weaviate) (e : exn) :
  fst (invoke c op st) = Raise e ->
  trace (snd (invoke c op st)) =
  trace st ++ [{| ev_call := c; ev_outcome := Raised e |}].
Proof.
  unfold invoke. destruct (op (world st)) as [[a|e'] w]; simpl; intros H;
    [discriminate H|]. now inversion H.
Qed.

Lemma raised_later (st s1 s2 : State weaviate) (e : exn) :
  (exists t, trace s1 = trace st ++ t) ->
  (exists t, trace s2 = trace s1 ++ t) ->
  raised_by_client (new_events s1 s2) e ->
  raised_by_client (new_events st s2) e.
Proof.
  intros [t1 E1] [t2 E2] [t0 [c H]].
  rewrite (new_events_app _ _ _ E2) in H. subst t2.
  exists (t1 ++ t0), c. apply new_events_app.
  rewrite E2, E1, <- !app_assoc. reflexivity.
Qed.

Lemma client_extends (st : State weaviate) :
  exists t, trace (snd (_client weaviate types self st)) = trace st ++ t.
Proof.
  destruct (client_only_setup weaviate types self st I) as [_ [t [E _]]]. now exists t.
Qed.

Lemma index_extends (st : State weaviate) :
  exists t, trace (snd (_index weaviate types self st)) = trace st ++ t.
Proof.
  destruct (index_only_setup weaviate types self st I) as [_ [t [E _]]]. now exists t.
Qed.

Lemma client_property_extends (st : State weaviate) :
  exists t, trace (snd (_client_property weaviate types self st)) = trace st ++ t.
Proof.
  assert (K : keeps (fun _ : State weaviate => True) (fun _ => true)
                (_client_property weaviate types self)).
  { apply keeps_cached_property; auto. apply keeps_client_body; auto. }
  destruct (K st I) as [_ [t [E _]]]. now exists t.
Qed.

Lemma index_property_extends (st : State weaviate) :
  exists t, trace (snd (_index_property weaviate types self st)) = trace st ++ t.
Proof.
  assert (K : keeps (fun _ : State weaviate => True) (fun _ => true)
                (_index_property weaviate types self)).
  { apply keeps_cached_property; auto. apply keeps_index_body; auto.
    apply keeps_instance_attribute.
    apply keeps_cached_property; auto. apply keeps_client_body; auto. }
  destruct (K st I) as [_ [t [E _]]]. now exists t.
Qed.

(** One evaluation of [_client] only fails when its connect call does. *)
Lemma client_property_failure (st : State weaviate) (e : exn) :
  fst (_client_property weaviate types self st) = Raise e ->
  raised_by_client (new_events st (snd (_client_property weaviate types self st))) e.
Proof.
  destruct (client_slot st) as [v|] eqn:Hs.
  - rewrite (client_property_hit weaviate types self st v Hs). discriminate.
  - destruct (client_miss_cases weaviate types self st Hs) as [E | [c [r [w [Hc E]]]]];
      rewrite E; [discriminate|].
    destruct r as [h|e']; cbn [fst snd]; intros H; [discriminate H|].
    inversion H. subst e'. exists [], c. apply new_events_app. reflexivity.
Qed.

(** [_client] only fails when its last connect call does. *)
Lemma client_failure (st : State weaviate) (e : exn) :
  fst (_client weaviate types self st) = Raise e ->
  raised_by_client (new_events st (snd (_client weaviate types self st))) e.
Proof.
  unfold _client.
  destruct (instance_attribute_cases (_client_property weaviate types self) st)
    as [[E _] | [s [E1 E]]]; rewrite E.
  - apply client_property_failure.
  - intros H. apply (raised_later st s).
    + pose proof (client_property_extends st) as X. now rewrite E1 in X.
    + apply client_property_extends.
    + now apply client_property_failure.
Qed.

(** One evaluation of [_index] fails when a call of its own or of [_client]
    does, or when the client is None. *)
Lemma index_property_failure (st : State weaviate) (e : exn) :
  fst (_index_property weaviate types self st) = Raise e ->
  raised_by_client (new_events st (snd (_index_property weaviate types self st))) e \/
  (e = AttributeError /\
   client_slot (snd (_index_property weaviate types self st)) = Some None).
Proof.
  destruct (index_slot st) as [v|] eqn:Hs.
  - rewrite (index_property_hit weaviate types self st v Hs). discriminate.
  - rewrite (index_miss weaviate types self st Hs).
    pose proof (client_extends st) as Hext.
    pose proof (client_failure st) as Hcf.
    destruct (_client weaviate types self st) as [[[c|]|e1] st1] eqn:Hc;
      cbn [fst snd] in *.
    + destruct (collections_exists weaviate c (index_name self) (world st1))
        as [[found|e2] w] eqn:Hx.
      * rewrite (index_body_after_exists weaviate types self st st1 c found w Hc Hx).
        destruct found;
          match goal with
          | |- context [invoke ?c ?op ?s] =>
              pose proof (invoke_failure c op s) as Hf;
              destruct (invoke c op s) as [[h|e3] s'] eqn:Hv; cbn [fst snd] in *;
              intros H; [discriminate H|]; inversion H; subst e3;
              left; destruct Hext as [t1 Et1];
              eexists (t1 ++ [_]), _; apply new_events_app;
              rewrite (Hf e eq_refl); cbn [trace]; rewrite Et1, <- !app_assoc; reflexivity
          end.
      * rewrite (index_body_exists_raises weaviate types self st st1 c e2 w Hc Hx).
        cbn [fst snd]. intros H. inversion H. subst e2. left.
        apply (raised_after st st1 _ (CollectionsExists c (index_name self)) e Hext).
        reflexivity.
    + rewrite (index_body_no_client weaviate types self st st1 Hc). cbn [fst snd].
      intros H. inversion H. right. split; [reflexivity|].
      exact (client_cached _ _ _ _ _ _ Hc).
    + rewrite (index_body_client_raises weaviate types self st st1 e1 Hc). cbn [fst snd].
      intros H. inversion H. subst e1. left. now apply Hcf.
Qed.

(** [_index] fails when the last call of its own or of [_client] does, or
    when the client is None. *)
Lemma index_failure (st : State weaviate) (e : exn) :
  fst (_index weaviate types self st) = Raise e ->
  raised_by_client (new_events st (snd (_index weaviate types self st))) e \/
  (e = AttributeError /\
   client_slot (snd (_index weaviate types self st)) = Some None).
Proof.
  unfold _index.
  destruct (instance_attribute_cases (_index_property weaviate types self) st)
    as [[E _] | [s [E1 E]]]; rewrite E.
  - apply index_property_failure.
  - intros H. destruct (index_property_failure s e H) as [H1 | H1]; [left | now right].
    apply (raised_later st s).
    + pose proof (index_property_extends st) as X. now rewrite E1 in X.
    + apply index_property_extends.
    + exact H1.
Qed.

(** X10: the complete list of reasons for which an operation fails. [add]
    raises only when a call to the client library raised (and then with
    that exception), when the client is None (AttributeError), when there
    is no document (IndexError), or when there is one document and the
    keyword arguments repeat [properties] or [uuid] (TypeError). [retrieve]
    raises only when a call raised, when the client is None, when the
    keyword arguments repeat [query] (TypeError), or when the query
    returned and either its result has no object (IndexError) or
    [from_response] raised on its first object (the exception of
    [from_response], for instance the KeyError of an object without a text
    property). [close_connection] raises only when a call raised or when
    the client is None. A call that raised is here the last call of the
    run: after an AttributeError of a connect or collections call the
    property is evaluated once more, and the run fails for what happens
    then. *)
Theorem failure_causes (st : State weaviate) :
  (forall input kw e,
     fst (add weaviate types self input kw st) = Raise e ->
     raised_by_client (new_events st (snd (add weaviate types self input kw st))) e \/
     (e = AttributeError /\
      client_slot (snd (add weaviate types self input kw st)) = Some None) \/
     (e = IndexError /\ documents_of self input = []) \/
     (e = TypeError /\ List.length (documents_of self input) = 1 /\
      has_key "properties" kw || has_key "uuid" kw = true)) /\
  (forall query kw e,
     fst (retrieve weaviate types self query kw st) = Raise e ->
     raised_by_client (new_events st (snd (retrieve weaviate types self query kw st))) e \/
     (e = AttributeError /\
      client_slot (snd (retrieve weaviate types self query kw st)) = Some None) \/
     (e = TypeError /\ has_key "query" kw = true) \/
     (exists t0 coll st1 query_result w,
        new_events st (snd (retrieve weaviate types self query kw st)) =
        t0 ++ [{| ev_call := QueryNearText coll query kw; ev_outcome := Returned |}] /\
        _index weaviate types self st = (Ok coll, st1) /\
        query_near_text weaviate coll query kw (world st1) = (Ok query_result, w) /\
        ((e = IndexError /\ objects query_result = []) \/
         (exists result rest,
            objects query_result = result :: rest /\
            from_response types result = Raise e)))) /\
  (forall e,
     fst (close_connection weaviate types self st) = Raise e ->
     raised_by_client (new_events st (snd (close_connection weaviate types self st))) e \/
     (e = AttributeError /\
      client_slot (snd (close_connection weaviate types self st)) = Some None)).
Proof.
  split; [|split].
  - intros input kw e. rewrite add_as_documents.
    pose proof (index_extends st) as Hext.
    pose proof (index_failure st) as Hif.
    destruct (_index weaviate types self st) as [[coll|e1] st1] eqn:Hi; cbn [fst snd] in *.
    + destruct (documents_of self input) as [|d [|d' l]] eqn:Hd.
      * rewrite (add_documents_none _ _ _ kw st st1 coll Hi). cbn [fst].
        intros H. inversion H. right. right. left. split; reflexivity.
      * destruct (has_key "properties" kw || has_key "uuid" kw) eqn:Hk.
        -- rewrite (add_documents_repeated_keyword weaviate types self d kw st st1 coll Hi Hk).
           cbn [fst]. intros H. inversion H. right. right. right.
           repeat split; reflexivity.
        -- apply orb_false_elim in Hk. destruct Hk as [Hp Hu].
           rewrite (add_documents_one _ _ _ d kw st st1 coll Hi Hp Hu).
           intros H. left.
           eapply (raised_after st st1); [exact Hext|]. now apply invoke_failure.
      * rewrite (add_documents_many _ _ _ (d :: d' :: l) kw st st1 coll Hi
                   ltac:(simpl; lia)).
        intros H. left.
        eapply (raised_after st st1); [exact Hext|]. now apply invoke_failure.
    + rewrite (add_documents_no_index _ _ _ _ kw st st1 e1 Hi). cbn [fst snd].
      intros H. inversion H. subst e1.
      destruct (Hif e eq_refl) as [H1 | H1]; [left | right; left]; exact H1.
  - intros query kw e.
    pose proof (index_extends st) as Hext.
    pose proof (index_failure st) as Hif.
    destruct (_index weaviate types self st) as [[coll|e1] st1] eqn:Hi; cbn [fst snd] in *.
    + destruct (has_key "query" kw) eqn:Hk.
      * rewrite (retrieve_repeated_keyword weaviate types self query kw st st1 coll Hi Hk).
        cbn [fst]. intros H. inversion H. right. right. left. split; reflexivity.
      * rewrite (retrieve_after_index _ _ _ query kw st st1 coll Hi Hk).
        unfold bind.
        pose proof (invoke_failure (QueryNearText coll query kw)
                      (query_near_text weaviate coll query kw) st1) as Hf.
        pose proof (invoke_trace weaviate (QueryNearText coll query kw)
                      (query_near_text weaviate coll query kw) st1) as Ht.
        pose proof (invoke_result weaviate (QueryNearText coll query kw)
                      (query_near_text weaviate coll query kw) st1) as Hr.
        destruct (invoke (QueryNearText coll query kw)
                    (query_near_text weaviate coll query kw) st1) as [[qr|e2] st2];
          cbn [fst snd] in *.
        -- intros H. right. right. right.
           destruct Hext as [t1 Et1].
           destruct (query_near_text weaviate coll query kw (world st1))
             as [r0 w0] eqn:Hq. cbn [fst] in Hr. subst r0.
           cbn [fst outcome_of] in Ht.
           exists t1, coll, st1, qr, w0.
           destruct (objects qr) as [|o rest];
             unfold item0, ret, raise, returning in H |- *; cbn [fst snd] in H |- *;
             (split; [apply new_events_app; rewrite Ht, Et1, <- app_assoc; reflexivity|]);
             (split; [reflexivity|]); (split; [exact Hq|]).
           ++ left. inversion H. split; reflexivity.
           ++ right. exists o, rest. split; [reflexivity|]. exact H.
        -- intros H. inversion H. subst e2. left.
           eapply (raised_after st st1); [exact Hext|]. now apply Hf.
    + rewrite (retrieve_no_index weaviate types self query kw st st1 e1 Hi). cbn [fst snd].
      intros H. inversion H. subst e1.
      destruct (Hif e eq_refl) as [H1 | H1]; [left | right; left]; exact H1.
  - intros e. unfold close_connection. unfold bind.
    pose proof (client_extends st) as Hext.
    pose proof (client_failure st) as Hcf.
    destruct (_client weaviate types self st) as [[[c|]|e1] st1] eqn:Hc;
      cbn [fst snd] in *.
    + unfold getattr, ret. intros H. left.
      eapply (raised_after st st1); [exact Hext|]. now apply invoke_failure.
    + cbn. intros H. inversion H. right. split; [reflexivity|].
      exact (client_cached _ _ _ _ _ _ Hc).
    + intros H. inversion H. subst e1. left. now apply Hcf.
Qed.

End Failures.

(** ** One client, and the collection created on first use *)

Section FirstUse.

Variable weaviate : WeaviateAPI.
Variable types : TypesModule.
Variable self : WeaviateVectorStore.

Lemma one_client_event (st : State weaviate) (c : call) (r : outcome)
    (w : World weaviate) :
  (fun c => match client_target c with None => true | Some _ => false end) c = true ->
  one_client st ->
  one_client
    {| world := w; client_slot := client_slot st; index_slot := index_slot st;
       trace := trace st ++ [{| ev_call := c; ev_outcome := r |}] |}.
Proof.
  intros Hc H ev c' Hin Ht. cbn [trace client_slot] in *.
  apply in_app_or in Hin. destruct Hin as [Hin | [<- | []]].
  - now apply (H ev c').
  - cbn [ev_call] in Ht. rewrite Ht in Hc. discriminate Hc.
Qed.

Lemma one_client_invoke {A : Type} (st : State weaviate) (client : handle)
    (c : call) (op : World weaviate -> result A * World weaviate) :
  one_client st -> client_slot st = Some (Some client) ->
  client_target c = Some client ->
  one_client (snd (invoke c op st)) /\
  client_slot (snd (invoke c op st)) = Some (Some client).
Proof.
  intros H Hs Hc. unfold invoke. destruct (op (world st)) as [r w].
  cbn [snd client_slot]. split; [|exact Hs].
  intros ev c' Hin Ht. cbn [trace client_slot] in *.
  apply in_app_or in Hin. destruct Hin as [Hin | [<- | []]].
  - now apply (H ev c').
  - cbn [ev_call] in Ht. congruence.
Qed.

Lemma client_preserves_one_client : preserves one_client (_client weaviate types self).
Proof.
  apply preserves_instance_attribute.
  intros st H. destruct (client_slot st) as [v|] eqn:Hs.
  - now rewrite (client_property_hit weaviate types self st v Hs).
  - assert (Hnone : forall ev c, In ev (trace st) -> client_target (ev_call ev) <> Some c).
    { intros ev c Hin Ht. specialize (H ev c Hin Ht). congruence. }
    destruct (client_miss_cases weaviate types self st Hs) as [E | [c [r [w [Hc E]]]]];
      rewrite E.
    + intros ev c' Hin Ht. now destruct (Hnone ev c' Hin).
    + assert (K : forall ev c',
                 In ev (trace st ++ [{| ev_call := c; ev_outcome := outcome_of r |}]) ->
                 client_target (ev_call ev) <> Some c').
      { intros ev c' Hin. apply in_app_or in Hin. destruct Hin as [Hin | [<- | []]].
        - now apply Hnone.
        - cbn [ev_call]. destruct c; simpl in *; congruence. }
      destruct r as [h|e]; intros ev c' Hin Ht; now destruct (K ev c' Hin).
Qed.

Lemma index_body_preserves_one_client :
  preserves one_client (_index_body weaviate types self).
Proof.
  intros st H.
  pose proof (client_preserves_one_client st H) as H1.
  destruct (_client weaviate types self st) as [[[c|]|e] st1] eqn:Hc; cbn [snd] in H1.
  - pose proof (client_cached _ _ _ _ _ _ Hc) as Hs.
    destruct (collections_exists weaviate c (index_name self) (world st1))
      as [[found|e] w] eqn:Hx.
    + rewrite (index_body_after_exists weaviate types self st st1 c found w Hc Hx).
      assert (H2 : one_client
                     {| world := w; client_slot := client_slot st1;
                        index_slot := index_slot st1;
                        trace := trace st1 ++
                                 [{| ev_call := CollectionsExists c (index_name self);
                                     ev_outcome := Returned |}] |}).
      { intros ev c' Hin Ht. cbn [trace client_slot] in *.
        apply in_app_or in Hin. destruct Hin as [Hin | [<- | []]].
        - now apply (H1 ev c').
        - cbn [ev_call client_target] in Ht. congruence. }
      destruct found; apply (one_client_invoke _ c); auto.
    + rewrite (index_body_exists_raises weaviate types self st st1 c e w Hc Hx).
      cbn [snd]. intros ev c' Hin Ht. cbn [trace client_slot] in *.
      apply in_app_or in Hin. destruct Hin as [Hin | [<- | []]].
      * now apply (H1 ev c').
      * cbn [ev_call client_target] in Ht. congruence.
  - now rewrite (index_body_no_client weaviate types self st st1 Hc).
  - now rewrite (index_body_client_raises weaviate types self st st1 e Hc).
Qed.

Lemma index_preserves_one_client : preserves one_client (_index weaviate types self).
Proof.
  apply preserves_instance_attribute.
  apply preserves_cached_property; [intros v st H; exact H|].
  exact index_body_preserves_one_client.
Qed.

Lemma close_preserves_one_client :
  preserves one_client (close_connection weaviate types self).
Proof.
  intros st H. unfold close_connection, bind.
  pose proof (client_preserves_one_client st H) as H1.
  destruct (_client weaviate types self st) as [[[c|]|e] st1] eqn:Hc; cbn [snd] in H1.
  - pose proof (client_cached _ _ _ _ _ _ Hc) as Hs.
    unfold getattr, ret.
    exact (proj1 (one_client_invoke st1 c (ClientClose c) (client_close weaviate c)
                    H1 Hs eq_refl)).
  - exact H1.
  - exact H1.
Qed.

(** X11: in every history of an instance that starts with nothing cached,
    every collections call (exists, get, create) and every close call made
    so far went to the client that is cached. *)
Theorem client_calls_go_to_cached_client (ops : list operation) (w : World weaviate) :
  one_client (run_ops weaviate types self ops (fresh weaviate w)).
Proof.
  apply preserved_by_history.
  - exact client_preserves_one_client.
  - exact index_preserves_one_client.
  - exact close_preserves_one_client.
  - intros input kw.
    apply (preserves_add weaviate one_client _ one_client_event);
      [exact index_preserves_one_client|].
    intros c; destruct c; simpl; intros H; try reflexivity; discriminate H.
  - intros query kw.
    apply (preserves_retrieve weaviate one_client _ one_client_event);
      [exact index_preserves_one_client|].
    intros c; destruct c; simpl; intros H; try reflexivity; discriminate H.
  - intros ev c [].
Qed.

(** What follows an access to [_index] in a run only adds to its trace. *)
Lemma after_index_extends {A : Type} (k : handle -> M weaviate A) (st : State weaviate) :
  (forall coll, forwards (k coll)) ->
  exists t, trace (snd (bind (_index weaviate types self) k st)) =
            trace (snd (_index weaviate types self st)) ++ t.
Proof.
  intros Hk. unfold bind.
  destruct (_index weaviate types self st) as [[coll|e] st1]; cbn [snd].
  - destruct (Hk coll st1) as [t [E _]]. now exists t.
  - exists []. now rewrite app_nil_r.
Qed.

Lemma add_extends_index (input : add_input) (kw : kwargs) (st : State weaviate) :
  exists t, trace (snd (add weaviate types self input kw st)) =
            trace (snd (_index weaviate types self st)) ++ t.
Proof.
  unfold add, add_documents. cbv zeta.
  destruct (Nat.ltb _ 2); apply after_index_extends; intros coll; forwarding.
Qed.

Lemma retrieve_extends_index (query : string) (kw : kwargs) (st : State weaviate) :
  exists t, trace (snd (retrieve weaviate types self query kw st)) =
            trace (snd (_index weaviate types self st)) ++ t.
Proof.
  unfold retrieve. apply after_index_extends. intros coll. forwarding.
Qed.

(** The first access to [_index] on a server without the collection. *)
Lemma index_creates_trace (st st1 : State weaviate) (c : handle) (w : World weaviate) :
  index_slot st = None ->
  _client weaviate types self st = (Ok (Some c), st1) ->
  collections_exists weaviate c (index_name self) (world st1) = (Ok false, w) ->
  exists t0 r t',
    trace (snd (_index weaviate types self st)) =
    trace st ++ t0 ++
    [{| ev_call := CollectionsExists c (index_name self); ev_outcome := Returned |};
     {| ev_call := CollectionsCreate c (params_kwargs types (create_params self));
        ev_outcome := r |}] ++ t'.
Proof.
  intros Hs Hc Hx.
  destruct (client_extends weaviate types self st) as [t0 E0].
  rewrite Hc in E0. cbn [snd] in E0.
  assert (P : exists r,
             trace (snd (_index_property weaviate types self st)) =
             trace st ++ t0 ++
             [{| ev_call := CollectionsExists c (index_name self); ev_outcome := Returned |};
              {| ev_call := CollectionsCreate c (params_kwargs types (create_params self));
                 ev_outcome := r |}]).
  { rewrite (index_miss weaviate types self st Hs).
    rewrite (index_body_after_exists weaviate types self st st1 c false w Hc Hx).
    cbv iota. unfold invoke. cbn [world].
    destruct (collections_create weaviate c (params_kwargs types (create_params self)) w)
      as [[h|e] w'];
      eexists; cbn [snd trace set_index_slot];
      rewrite E0, <- !app_assoc; reflexivity. }
  destruct P as [r P]. unfold _index.
  destruct (instance_attribute_cases (_index_property weaviate types self) st)
    as [[E _] | [s [E1 E]]]; rewrite E.
  - exists t0, r, []. rewrite P. reflexivity.
  - destruct (index_property_extends weaviate types self s) as [t' Et'].
    exists t0, r, t'. rewrite Et'. rewrite E1 in P. cbn [snd] in P.
    rewrite P, <- !app_assoc. reflexivity.
Qed.

(** X12: the collection is created on first use, whatever the use. When
    the instance has no collection cached, its client connects and the
    server has no collection of that name, a [retrieve] and an [add] both
    call [collections.create] with the parameters of the store, also when
    the operation then fails (no document, no object to return, a repeated
    keyword). *)
Theorem first_use_creates_collection (st st1 : State weaviate) (c : handle)
    (w : World weaviate) :
  index_slot st = None ->
  _client weaviate types self st = (Ok (Some c), st1) ->
  collections_exists weaviate c (index_name self) (world st1) = (Ok false, w) ->
  (forall query kw,
     In (CollectionsCreate c (params_kwargs types (create_params self)))
        (calls (new_events st (snd (retrieve weaviate types self query kw st))))) /\
  (forall input kw,
     In (CollectionsCreate c (params_kwargs types (create_params self)))
        (calls (new_events st (snd (add weaviate types self input kw st))))).
Proof.
  intros Hs Hc Hx.
  destruct (index_creates_trace st st1 c w Hs Hc Hx) as [t0 [r [t' Ei]]].
  assert (K : forall st' : State weaviate,
             (exists t, trace st' = trace (snd (_index weaviate types self st)) ++ t) ->
             In (CollectionsCreate c (params_kwargs types (create_params self)))
                (calls (new_events st st'))).
  { intros st' [t Et].
    rewrite (new_events_app st st'
               (t0 ++ [{| ev_call := CollectionsExists c (index_name self);
                          ev_outcome := Returned |};
                       {| ev_call := CollectionsCreate c
                                       (params_kwargs types (create_params self));
                          ev_outcome := r |}] ++ t' ++ t)).
    - rewrite !calls_app. apply in_or_app. right. apply in_or_app. left.
      cbn. right. left. reflexivity.
    - rewrite Et, Ei, <- !app_assoc. reflexivity. }
  split.
  - intros query kw. apply K, retrieve_extends_index.
  - intros input kw. apply K, add_extends_index.
Qed.

End FirstUse.

(** * Concrete runs for the further properties *)

Lemma collection_cached_with_client_witness :
  exists c,
    client_slot (run_ops server_api plain_types my_store usual_history
                   (fresh server_api server_up)) = Some (Some c).
Proof.
  apply (collection_cached_with_client server_api plain_types my_store
           usual_history server_up).
  vm_compute. discriminate.
Defined.

Lemma data_calls_go_to_cached_collection_witness :
  index_slot (run_ops server_api plain_types my_store usual_history
                (fresh server_api server_up)) = Some 100.
Proof.
  apply (data_calls_go_to_cached_collection server_api plain_types my_store
           usual_history server_up
           {| ev_call := QueryNearText 100 "hello" []; ev_outcome := Returned |} 100).
  - vm_compute. repeat first [left; reflexivity | right].
  - reflexivity.
Defined.

Lemma close_keeps_the_cache_witness :
  client_slot (snd (close_connection server_api plain_types my_store
                      (connected server_up))) = Some (Some 1) /\
  connect_calls
    (trace (run_ops server_api plain_types my_store usual_history
              (snd (close_connection server_api plain_types my_store
                      (connected server_up))))) =
  connect_calls (trace (connected server_up)).
Proof.
  destruct (close_keeps_the_cache server_api plain_types my_store
              (connected server_up) 1 eq_refl) as [_ [H1 [_ H2]]].
  split; [exact H1 | exact (proj2 (H2 usual_history))].
Defined.

Lemma batch_add_ignores_keywords_witness :
  add server_api plain_types my_store (TDocs [doc_a; doc_b]) [("uuid", PyStr "u")]
    (fresh server_api server_up) =
  add server_api plain_types my_store (TDocs [doc_a; doc_b]) []
    (fresh server_api server_up).
Proof.
  exact (batch_add_ignores_keywords server_api plain_types my_store
           (TDocs [doc_a; doc_b]) [("uuid", PyStr "u")] []
           (fresh server_api server_up) (le_n 2)).
Defined.

Lemma repeated_keyword_is_type_error_witness :
  add server_api plain_types my_store (TDocs [doc_a]) [("uuid", PyStr "u")]
    (fresh server_api server_up) = (Raise TypeError, indexed server_up) /\
  retrieve server_api plain_types my_store "hello" [("query", PyStr "q")]
    (fresh server_api server_with_data) = (Raise TypeError, indexed server_with_data).
Proof.
  split.
  - exact (proj1 (proj1 (repeated_keyword_is_type_error server_api plain_types my_store
                           [("uuid", PyStr "u")] (fresh server_api server_up)
                           (indexed server_up) 100 eq_refl)
                    (TDocs [doc_a]) doc_a eq_refl eq_refl)).
  - exact (proj1 (proj2 (repeated_keyword_is_type_error server_api plain_types my_store
                           [("query", PyStr "q")] (fresh server_api server_with_data)
                           (indexed server_with_data) 100 eq_refl)
                    "hello" eq_refl)).
Defined.

Lemma failed_index_keeps_client_witness :
  fst (_index server_api plain_types unnamed_store (fresh server_api server_up)) =
    Raise (ClientError "missing name") /\
  client_slot (snd (_index server_api plain_types unnamed_store
                      (fresh server_api server_up))) = Some (Some 1) /\
  index_slot (snd (_index server_api plain_types unnamed_store
                     (fresh server_api server_up))) = None.
Proof.
  destruct (failed_index_keeps_client server_api plain_types unnamed_store
              (fresh server_api server_up)
              (snd (_client server_api plain_types unnamed_store
                      (fresh server_api server_up)))
              (snd (_index server_api plain_types unnamed_store
                      (fresh server_api server_up)))
              1 (ClientError "missing name") eq_refl eq_refl eq_refl) as [H1 [H2 _]].
  split; [reflexivity|]. split; [exact H1 | exact H2].
Defined.

Lemma failure_causes_witness :
  raised_by_client
    (new_events (fresh server_api server_down)
       (snd (add server_api plain_types my_store (TDocs [doc_a]) []
               (fresh server_api server_down))))
    (ClientError "connection refused") \/
  (ClientError "connection refused" = AttributeError /\
   client_slot (snd (add server_api plain_types my_store (TDocs [doc_a]) []
                       (fresh server_api server_down))) = Some None) \/
  (ClientError "connection refused" = IndexError /\
   documents_of my_store (TDocs [doc_a]) = []) \/
  (ClientError "connection refused" = TypeError /\
   List.length (documents_of my_store (TDocs [doc_a])) = 1 /\
   has_key "properties" [] || has_key "uuid" [] = true).
Proof.
  exact (proj1 (failure_causes server_api plain_types my_store
                  (fresh server_api server_down))
           (TDocs [doc_a]) [] (ClientError "connection refused") eq_refl).
Defined.

(** The same list at a [retrieve] whose first object has no text: the
    failure is the KeyError of [from_response]. *)
Example retrieve_fails_in_from_response :
  (fst (retrieve server_api plain_types my_store "hello" []
          (fresh server_api server_with_untexted)) = Raise (KeyError "text")) /\
  (new_events (fresh server_api server_with_untexted)
     (snd (retrieve server_api plain_types my_store "hello" []
             (fresh server_api server_with_untexted))) =
   [{| ev_call := ConnectToLocal []; ev_outcome := Returned |};
    {| ev_call := CollectionsExists 1 (Some "my-store-0001"); ev_outcome := Returned |};
    {| ev_call := CollectionsGet 1 (Some "my-store-0001"); ev_outcome := Returned |};
    {| ev_call := QueryNearText 100 "hello" []; ev_outcome := Returned |}]).
Proof. split; reflexivity. Qed.

Lemma client_calls_go_to_cached_client_witness :
  client_slot (run_ops server_api plain_types my_store usual_history
                 (fresh server_api server_up)) = Some (Some 1).
Proof.
  apply (client_calls_go_to_cached_client server_api plain_types my_store
           usual_history server_up
           {| ev_call := ClientClose 1; ev_outcome := Returned |} 1).
  - vm_compute. repeat first [left; reflexivity | right].
  - reflexivity.
Defined.

Lemma first_use_creates_collection_witness :
  In (CollectionsCreate 1 [("name", PyStr "my-store-0001")])
     (calls (new_events (fresh server_api server_up)
               (snd (retrieve server_api plain_types my_store "hello" []
                       (fresh server_api server_up))))) /\
  In (CollectionsCreate 1 [("name", PyStr "my-store-0001")])
     (calls (new_events (fresh server_api server_up)
               (snd (add server_api plain_types my_store (TDocs []) []
                       (fresh server_api server_up))))).
Proof.
  destruct (first_use_creates_collection server_api plain_types my_store
              (fresh server_api server_up) (connected server_up) 1 server_up
              eq_refl eq_refl eq_refl) as [Hr Ha].
  split; [exact (Hr "hello" []) | exact (Ha (TDocs []) [])].
Defined.
